(** * navis.io.nmx_io: reading and writing NML / NMX skeleton files

    A shallow embedding of [src/navis/io/nmx_io.py]:

    - [NMLReader.read_nml], lines 118-124: the edge list of a skeleton is
      loaded into an undirected [networkx] graph, a breadth-first tree is
      grown from the first vertex of that graph and every row of the node
      table receives the tree predecessor of its node as [parent_id]
      ([-1] where there is none), through a column that pandas holds as
      float64 as soon as one row has none;
    - [NMXReader.read_buffer], lines 147-176: the zip archive reader;
    - [write_nml], lines 331-377: the XML document built from the SWC table.

    Node identifiers are integers ([Z]).  The ordered dictionaries of
    [networkx] (vertices in insertion order, neighbours in insertion order)
    are association lists, because [list(G.nodes)[0]] and the order in which
    the traversal meets the neighbours depend on that order. *)

From Stdlib Require Import ZArith List Bool Lia Relations Ascii String.
From Stdlib Require Import Sorted Permutation.
From stdpp Require Import gmap strings pretty.
Import ListNotations.

Local Open Scope Z_scope.

(** ** Exceptions and results *)

(** The Python exceptions the modelled code can raise. *)
Inductive exn : Type :=
| IndexError        (* list(G.nodes)[0] on a graph without vertices *)
| AttributeError    (* attribute access on an object that lacks it *)
| ValueError        (* raised by hand in read_buffer; pandas reindex *)
| TypeError         (* item assignment on None; update of a dict from a number *)
| BadZipFile        (* ZipFile on bytes that are no zip archive *)
| NetworkXError.    (* G.neighbors on a vertex that is not in G; an edge row
                       that is neither a pair nor a triple *)

Inductive result (A : Type) : Type :=
| Ok (a : A)
| Raise (e : exn).
Arguments Ok {A} a.
Arguments Raise {A} e.

(** Sequencing stops at the first exception. *)
#[global] Instance result_ret : MRet result := fun A a => Ok a.
#[global] Instance result_bind : MBind result := fun A B k r =>
  match r with
  | Ok a => k a
  | Raise e => Raise e
  end.

(** ** The networkx structures used by [read_nml] *)

Module nx.

(** [nx.Graph]: [G._adj], a dictionary from vertex to the dictionary of
    its neighbours; both keep insertion order. *)
Definition Graph : Type := list (Z * list Z).

Definition empty : Graph := [].

(** [G.nodes], in insertion order. *)
Definition nodes (G : Graph) : list Z := map fst G.

Definition mem (x : Z) (l : list Z) : bool := existsb (Z.eqb x) l.

Definition has_node (G : Graph) (u : Z) : bool := mem u (nodes G).

(** [if u not in self._adj: self._adj[u] = {}] *)
Definition add_node (G : Graph) (u : Z) : Graph :=
  if has_node G u then G else G ++ [(u, [])].

(** [self._adj[u][v] = datadict]: a key that is present keeps its place,
    a new key goes last. *)
Definition set_nbr (u v : Z) (row : Z * list Z) : Z * list Z :=
  if fst row =? u
  then (fst row, if mem v (snd row) then snd row else snd row ++ [v])
  else row.

Definition add_nbr (G : Graph) (u v : Z) : Graph := map (set_nbr u v) G.

(** One turn of the loop of [Graph.add_edges_from]. *)
Definition add_edge (G : Graph) (e : Z * Z) : Graph :=
  let '(u, v) := e in
  add_nbr (add_nbr (add_node (add_node G u) v) u v) v u.

Definition add_edges_from (G : Graph) (ebunch : list (Z * Z)) : Graph :=
  fold_left add_edge ebunch G.

(** [G.neighbors(u)] = [iter(self._adj[u])]. *)
Definition neighbors (G : Graph) (u : Z) : option (list Z) :=
  option_map snd (find (fun row => fst row =? u) G).

(** The inner loop of [generic_bfs_edges]:
    [for child in children: if child not in seen: seen.add(child); ...;
     yield parent, child].
    Returns the enlarged [seen] and the edges yielded. *)
Fixpoint expand (parent : Z) (children seen : list Z)
  : list Z * list (Z * Z) :=
  match children with
  | [] => (seen, [])
  | c :: cs =>
      if mem c seen then expand parent cs seen
      else let '(seen', es) := expand parent cs (c :: seen) in
           (seen', (parent, c) :: es)
  end.

(** The outer loop of [generic_bfs_edges], one vertex per turn: the head
    of the queue is taken off, its unseen neighbours are yielded and
    appended to the queue.  [fuel] bounds the number of turns; [None]
    means the bound was reached with vertices still queued. *)
Fixpoint bfs_loop (fuel : nat) (G : Graph) (queue seen : list Z)
  : option (result (list (Z * Z))) :=
  match queue with
  | [] => Some (Ok [])
  | p :: q =>
      match fuel with
      | O => None
      | S fuel' =>
          match neighbors G p with
          | None => Some (Raise NetworkXError)
          | Some children =>
              let '(seen', es) := expand p children seen in
              match bfs_loop fuel' G (q ++ map snd es) seen' with
              | Some (Ok rest) => Some (Ok (es ++ rest))
              | other => other
              end
          end
      end
  end.

(** [bfs_edges(G, source)]: every vertex enters the queue at most once,
    so [len(G)] turns are enough (lemma [bfs_edges_spec]). *)
Definition bfs_edges (G : Graph) (source : Z)
  : option (result (list (Z * Z))) :=
  bfs_loop (List.length G) G [source] [source].

(** [list(nx.bfs_tree(G, source).edges)]: the directed tree holds
    [source] and the edges yielded by [bfs_edges]; its edge view lists
    them grouped by predecessor in the order the predecessors entered
    the tree, which is the order in which they were yielded. *)
Definition bfs_tree_edges (G : Graph) (source : Z)
  : option (result (list (Z * Z))) :=
  bfs_edges G source.

End nx.

(** ** [NMLReader.read_nml], lines 118-124 *)

(** The sentinel written by [fillna(-1)]. *)
Definition NONE : Z := -1.

(** The integer a float64 column holds in place of the integer [z]: [z]
    itself up to [2^53] in absolute value, and beyond that the nearest
    number with a significand of 53 bits, a tie going to the even
    significand.  (Identifiers are at most 64 bits wide, far below the
    largest double; the cast back to the integer type is exact unless
    the rounding reaches [2^63], which takes an identifier within 512
    of the end of the int64 range.) *)
Definition float64_of_int (z : Z) : Z :=
  if Z.abs z <=? 2 ^ 53 then z
  else
    let e := Z.log2 (Z.abs z) - 52 in
    let q := Z.abs z / 2 ^ e in
    let r := Z.abs z mod 2 ^ e in
    let half := 2 ^ (e - 1) in
    let q' := if r <? half then q
              else if half <? r then q + 1
              else if Z.even q then q else q + 1 in
    Z.sgn z * (q' * 2 ^ e).

Module NMLReader.

(** [list(G.nodes)[0]] *)
Definition first_node (G : nx.Graph) : result Z :=
  match nx.nodes G with
  | [] => Raise IndexError
  | n :: _ => Ok n
  end.

Fixpoint has_dup (l : list Z) : bool :=
  match l with
  | [] => false
  | x :: l' => nx.mem x l' || has_dup l'
  end.

(** One cell of [edges.set_index('target').reindex(ids).source] as
    line 123 leaves it when nothing is lost on the way: the tree
    predecessor of [n], or [-1] where the label is no target and
    [reindex] has put [NaN]. *)
Definition source_of (tree : list (Z * Z)) (n : Z) : Z :=
  match find (fun e => snd e =? n) tree with
  | Some e => fst e
  | None => NONE
  end.

(** Whether [reindex] meets a label that is no target of the tree.  It
    then writes [NaN], and pandas turns the whole [source] column into
    float64 to hold it. *)
Definition has_nan (tree : list (Z * Z)) (ids : list Z) : bool :=
  existsb (fun n => negb (nx.mem n (map snd tree))) ids.

(** One cell of the [parent_id] column after
    [fillna(-1).astype(self._dtypes['node_id'])] (line 123): the
    predecessor has been through [float64_of_int] when the column was
    turned into float64, and is the integer the tree holds otherwise. *)
Definition parent_id (tree : list (Z * Z)) (ids : list Z) (n : Z) : Z :=
  if has_nan tree ids then float64_of_int (source_of tree n)
  else source_of tree n.

(** Lines 122-123.  pandas refuses to reindex when the index (here the
    column of targets) has a repeated label. *)
Definition reindex (tree : list (Z * Z)) (ids : list Z) : result (list Z) :=
  if has_dup (map snd tree) then Raise ValueError
  else Ok (map (parent_id tree ids) ids).

(** [nodes.sort_values('node_id')] on rows [(node_id, parent_id)]. *)
Fixpoint insert_row (r : Z * Z) (rows : list (Z * Z)) : list (Z * Z) :=
  match rows with
  | [] => [r]
  | r' :: rows' =>
      if fst r <=? fst r' then r :: r' :: rows'
      else r' :: insert_row r rows'
  end.

Definition sort_values (rows : list (Z * Z)) : list (Z * Z) :=
  fold_right insert_row [] rows.

(** The vertex [nx.bfs_tree] is started from: the first vertex of the
    graph built from the edge table (lines 118-120). *)
Definition bfs_start (edges : list (Z * Z)) : result Z :=
  first_node (nx.add_edges_from nx.empty edges).

(** Lines 118-124 of [read_nml].  [node_ids] is the [node_id] column of
    the decoded node table, in document order; [edges] holds the rows of
    the decoded edge table when it has its two columns ([read_nml_values]
    below takes rows of any width).  An empty node table has no [node_id]
    column, so that [nodes.node_id] raises.  The result is the table of
    [(node_id, parent_id)] rows handed to [core.TreeNeuron].
    [None]: the traversal ran out of fuel (never: [read_nml_returns]). *)
Definition read_nml (node_ids : list Z) (edges : list (Z * Z))
  : option (result (list (Z * Z))) :=
  let G := nx.add_edges_from nx.empty edges in
  match first_node G with
  | Raise e => Some (Raise e)
  | Ok source =>
      match nx.bfs_tree_edges G source with
      | None => None
      | Some (Raise e) => Some (Raise e)
      | Some (Ok tree) =>
          match node_ids with
          | [] => Some (Raise AttributeError)
          | _ =>
              Some (parents ← reindex tree node_ids;
                    Ok (sort_values (combine node_ids parents)))
          end
      end
  end.

(** [G.add_edges_from(edges.values)] (line 119) takes the rows of the
    edge table as they come.  A row of two entries is an edge.  In a
    row of three the third entry is taken for the attributes of the
    edge, and [datadict.update] raises on a number.  Any other width is
    refused. *)
Definition unpack_edge (row : list Z) : result (Z * Z) :=
  match row with
  | [u; v] => Ok (u, v)
  | [_; _; _] => Raise TypeError
  | _ => Raise NetworkXError
  end.

Fixpoint unpack_edges (values : list (list Z)) : result (list (Z * Z)) :=
  match values with
  | [] => Ok []
  | row :: values' =>
      e ← unpack_edge row;
      es ← unpack_edges values';
      Ok (e :: es)
  end.

(** Lines 118-124 on [edges.values] as the decoded table gives it, a
    row being the list of its entries: the first row that is no pair
    stops [add_edges_from] before anything else happens. *)
Definition read_nml_values (node_ids : list Z) (values : list (list Z))
  : option (result (list (Z * Z))) :=
  match unpack_edges values with
  | Raise e => Some (Raise e)
  | Ok edges => read_nml node_ids edges
  end.

(** The parent recorded for node [n] in a table of rows. *)
Definition parent_of (rows : list (Z * Z)) (n : Z) : option Z :=
  option_map snd (find (fun r => fst r =? n) rows).

End NMLReader.

(** ** Strings *)

Local Open Scope string_scope.

(** [s.endswith(suffix)] *)
Fixpoint endswith (s suffix : string) : bool :=
  if String.eqb s suffix then true
  else match s with
       | EmptyString => false
       | String _ s' => endswith s' suffix
       end.

Fixpoint startswith (s prefix : string) : bool :=
  match prefix, s with
  | EmptyString, _ => true
  | String a p', String b s' => Ascii.eqb a b && startswith s' p'
  | String _ _, EmptyString => false
  end.

(** [sub in s] *)
Fixpoint contains (s sub : string) : bool :=
  startswith s sub ||
  match s with
  | EmptyString => false
  | String _ s' => contains s' sub
  end.

(** [s.split('/')[0]]: the text before the first slash. *)
Fixpoint split_first (s : string) : string :=
  match s with
  | EmptyString => EmptyString
  | String c s' => if Ascii.eqb c "/" then EmptyString else String c (split_first s')
  end.

Definition dquote : string := String "034" EmptyString.

(** ** [NMXReader.read_buffer], lines 147-176 *)

(** What [read] hands out: text or bytes. *)
Inductive pyval : Type :=
| PyStr (s : string)
| PyBytes (b : list Byte.byte).

(** [isinstance(v, bytes)] *)
Definition isinstance_bytes (v : pyval) : bool :=
  match v with
  | PyBytes _ => true
  | PyStr _ => false
  end.

(** A readable buffer, as far as [read_buffer] uses it: its method
    [read(n)], called before anything has been consumed. *)
Record buffer : Type := { read : nat -> pyval }.

(** [io.StringIO(content)] and [io.BytesIO(content)]. *)
Definition StringIO (content : string) : buffer :=
  {| read := fun n => PyStr (substring 0 n content) |}.

Definition BytesIO (content : list Byte.byte) : buffer :=
  {| read := fun n => PyBytes (firstn n content) |}.

(** A member of [zip.filelist] together with what [zip.read] returns. *)
Record ZipInfo : Type := { filename : string; data : list Byte.byte }.

(** The [attrs] argument: [None], or a reference to the dictionary object
    of the caller, which lives in the world below. *)
Inductive attrs_arg : Type := PyNone | PyDict.

Inductive event : Type :=
| ZipOpened
| MemberRead (name : string)
| Warning (msg : string).

(** The objects a call can change: the caller's [attrs] dictionary and,
    in order, what happened to the archive and the logger. *)
Record world : Type := World {
  attrs_obj : gmap string string;
  trace : list event
}.

Definition emit (e : event) (w : world) : world :=
  World (attrs_obj w) (trace w ++ [e]).

(** [attrs[k] = v] on the caller's dictionary. *)
Definition setitem (k v : string) (w : world) : world :=
  World (<[k := v]> (attrs_obj w)) (trace w).

Module NMXReader.
Section Reader.

Variable neuron : Type.

(** [ZipFile(f)]: the decoding of the container is the standard
    library's. *)
Variable ZipFile : buffer -> result (list ZipInfo).

(** [self.read_nml(bytes, attrs=attrs)]: XML decoding, the canonical
    tree of [NMLReader.read_nml] and the [core.TreeNeuron] constructor. *)
Variable read_nml : list Byte.byte -> attrs_arg -> world -> result neuron * world.

(** The name [f] of line 147 is rebound by the loop of line 170: it is
    the buffer until the loop has taken its first member. *)
Inductive fvar : Type :=
| Buffer
| Member (m : ZipInfo).

(** Line 171. *)
Definition qualifies (m : ZipInfo) : bool :=
  endswith (filename m) ".nml" && contains (filename m) "skeleton".

Definition skipped_message (m : ZipInfo) : string :=
  "Skipped " ++ dquote ++ split_first (filename m) ++ ".nmx" ++ dquote
  ++ ": failed to import skeleton.".

(** Lines 170-176; the function returns [None] when it falls off its
    end. *)
Fixpoint members (filelist : list ZipInfo) (f : fvar) (attrs : attrs_arg)
    (w : world) : result (option neuron) * world :=
  match filelist with
  | m :: rest =>
      if qualifies m then
        match attrs with
        | PyNone => (Raise TypeError, w)
        | PyDict =>
            let w := setitem "file" (filename m) w in
            let w := setitem "id" (split_first (filename m)) w in
            let '(r, w) := read_nml (data m) attrs (emit (MemberRead (filename m)) w) in
            (x ← r; Ok (Some x), w)
        end
      else members rest (Member m) attrs w
  | [] =>
      match f with
      | Buffer => (Raise AttributeError, w)
      | Member m => (Ok None, emit (Warning (skipped_message m)) w)
      end
  end.

Definition read_buffer (f : buffer) (attrs : attrs_arg) (w : world)
  : result (option neuron) * world :=
  if negb (isinstance_bytes (read f 0)) then (Raise ValueError, w)
  else
    let w := emit ZipOpened w in
    match ZipFile f with
    | Raise e => (Raise e, w)
    | Ok filelist => members filelist Buffer attrs w
    end.

End Reader.
End NMXReader.

(** ** [write_nml], lines 331-377 *)

(** [xml.etree.ElementTree.Element]: tag, attributes in insertion order,
    children. *)
#[local] Unset Elimination Schemes.
Inductive Element : Type :=
| Elem (tag : string) (attrib : list (string * string)) (children : list Element).

#[local] Set Elimination Schemes.

Definition tag_of (e : Element) : string := let '(Elem t _ _) := e in t.
Definition attrib_of (e : Element) : list (string * string) := let '(Elem _ a _) := e in a.
Definition children_of (e : Element) : list Element := let '(Elem _ _ c) := e in c.

(** [str(int(v))] *)
Definition str_int (z : Z) : string := pretty z.

Section Writer.

(** The floating-point cells of the table and their [str]. *)
Variable real : Type.
Variable str : real -> string.

(** A row of the table returned by [make_swc_table]. *)
Record swc_row : Type := {
  PointNo : Z;
  Radius : real;
  X : real;
  Y : real;
  Zc : real;     (* column "Z" *)
  Parent : Z
}.

Variable neuron : Type.
(** [x.name] *)
Variable name : neuron -> string.
(** [make_swc_table(x, labels=False, export_connectors=False,
    return_node_map=...)] of [swc_io], with the node map it can return. *)
Variable make_swc_table : neuron -> list swc_row * gmap Z Z.

Definition node_element (row : swc_row) : Element :=
  Elem "node" [("id", str_int (PointNo row));
               ("radius", str (Radius row));
               ("x", str (X row));
               ("y", str (Y row));
               ("z", str (Zc row))] [].

Definition edge_element (row : swc_row) : Element :=
  Elem "edge" [("source", str_int (Parent row));
               ("target", str_int (PointNo row))] [].

(** One turn of the loop of lines 360-369 on the children of [nodes]
    and of [edges]. *)
Definition write_row (st : list Element * list Element) (row : swc_row)
  : list Element * list Element :=
  let '(nodes, edges) := st in
  let nodes := (nodes ++ [node_element row])%list in
  if negb (Parent row =? -1)%Z then (nodes, (edges ++ [edge_element row])%list)
  else (nodes, edges).

(** The document handed to [tree.write], and the returned node map. *)
Definition write_nml (x : neuron) (return_node_map : bool)
  : Element * option (gmap Z Z) :=
  let parameters :=
    Elem "parameters" []
      [Elem "offset" [("x", "0"); ("y", "0"); ("z", "0")] [];
       Elem "scale" [("x", "1"); ("y", "1"); ("z", "1")] []] in
  let '(swc, node_map) := make_swc_table x in
  let '(nodes, edges) := fold_left write_row swc ([], []) in
  let thing :=
    Elem "thing" [("id", "1"); ("name", name x);
                  ("color.r", "0.0"); ("color.g", "0.0");
                  ("color.b", "1.0"); ("color.a", "1.0")]
      [Elem "nodes" [] nodes; Elem "edges" [] edges] in
  (Elem "things" [] [parameters; thing],
   if return_node_map then Some node_map else None).

(** The [edge] elements of a document, under things/thing/edges. *)
Definition edges_of (doc : Element) : list Element :=
  flat_map children_of
    (List.filter (fun e => String.eqb (tag_of e) "edges")
       (flat_map children_of
          (List.filter (fun e => String.eqb (tag_of e) "thing") (children_of doc)))).

End Writer.

Arguments PointNo {real}.
Arguments Parent {real}.

(** A row that is not the root: the test of line 367. *)
Definition has_parent {real : Type} (row : swc_row real) : bool :=
  negb (Parent row =? -1)%Z.

Local Close Scope string_scope.

(** ** Vocabulary of the properties *)

(** The neighbours of a vertex, none for a vertex that is absent. *)
Definition nbrs (G : nx.Graph) (x : Z) : list Z :=
  match nx.neighbors G x with Some l => l | None => [] end.

(** Vertices of [G] the traversal has not met. *)
Definition unseen (G : nx.Graph) (seen : list Z) : list Z :=
  List.filter (fun x => negb (nx.mem x seen)) (nx.nodes G).

(** [x] descends from one of [roots] along the edges of [tree]. *)
Inductive descends (tree : list (Z * Z)) (roots : list Z) : Z -> Prop :=
| descends_root x : In x roots -> descends tree roots x
| descends_edge p c : In (p, c) tree -> descends tree roots p -> descends tree roots c.

(** The undirected graph an edge table describes: [x] and [y] are
    adjacent when the table lists them as a pair, in either order. *)
Definition adjacent (edges : list (Z * Z)) (x y : Z) : Prop :=
  In (x, y) edges \/ In (y, x) edges.

(** Consecutive vertices of [l] are related by [R]. *)
Fixpoint is_path (R : Z -> Z -> Prop) (l : list Z) : Prop :=
  match l with
  | x :: l' =>
      match l' with
      | y :: _ => R x y /\ is_path R l'
      | [] => True
      end
  | [] => True
  end.

(** Every edge joins two nodes of the node table. *)
Definition edges_over (node_ids : list Z) (edges : list (Z * Z)) : Prop :=
  forall u v, In (u, v) edges -> In u node_ids /\ In v node_ids.

(** Any two nodes are joined by a walk. *)
Definition connected (node_ids : list Z) (edges : list (Z * Z)) : Prop :=
  forall a b, In a node_ids -> In b node_ids ->
              clos_refl_trans Z (adjacent edges) a b.

(** A cycle: at least three distinct vertices, each adjacent to the next
    and the last to the first. *)
Definition cycle (R : Z -> Z -> Prop) (l : list Z) : Prop :=
  (3 <= List.length l)%nat /\ List.NoDup l /\ is_path R l /\ R (List.last l 0) (List.hd 0 l).

(** No loop at a vertex and no cycle. *)
Definition acyclic (edges : list (Z * Z)) : Prop :=
  (forall u, ~ adjacent edges u u) /\ forall l, ~ cycle (adjacent edges) l.

(** A valid input: a set of nodes and a set of edges over it that form a
    connected acyclic graph. *)
Definition valid_tree (node_ids : list Z) (edges : list (Z * Z)) : Prop :=
  List.NoDup node_ids /\ edges_over node_ids edges /\
  connected node_ids edges /\ acyclic edges.

(** An identifier that a float64 holds as it is.  Every identifier of
    8, 16 or 32 bits is one; of those of 64 bits ([precision=64]), the
    ones up to [2^53] in absolute value. *)
Definition float64_exact (z : Z) : Prop := Z.abs z <= 2 ^ 53.

(** An edge table all of whose identifiers a float64 holds as they
    are. *)
Definition exact_edges (edges : list (Z * Z)) : Prop :=
  forall u v, In (u, v) edges -> float64_exact u /\ float64_exact v.

(** The world in which [read_nml] is entered for the member [m]: lines
    172-174 have stored the two keys and read the member. *)
Definition entered (m : ZipInfo) (w : world) : world :=
  emit (MemberRead (filename m))
    (setitem "id" (split_first (filename m)) (setitem "file" (filename m) w)).

(** What the name [f] of [read_buffer] is bound to once the loop over
    [filelist] has run through. *)
Definition last_member (filelist : list ZipInfo) : option ZipInfo :=
  List.last (map Some filelist) None.

(** A parent link of a table of rows: node [c] has the parent [p], and
    [p] is not the sentinel. *)
Definition child_link (rows : list (Z * Z)) (c p : Z) : Prop :=
  NMLReader.parent_of rows c = Some p /\ p <> NONE.

(** [x] lies [d] edges of [tree] below [s]. *)
Inductive depth_in (tree : list (Z * Z)) (s : Z) : Z -> nat -> Prop :=
| depth_root : depth_in tree s s O
| depth_edge p c d : In (p, c) tree -> depth_in tree s p d -> depth_in tree s c (S d).

(** The rows are in ascending order of [node_id]. *)
Definition sorted_by_id (rows : list (Z * Z)) : Prop :=
  Sorted (fun r r' => fst r <= fst r') rows.

(** The [node] elements of a document, under things/thing/nodes. *)
Definition nodes_of (doc : Element) : list Element :=
  flat_map children_of
    (List.filter (fun e => String.eqb (tag_of e) "nodes")
       (flat_map children_of
          (List.filter (fun e => String.eqb (tag_of e) "thing") (children_of doc)))).

(** ** [NMLReader.read_nml], lines 109-124, on the parsed document *)

(** How a call can end: line 119 reads [edges], which no statement has
    bound when the document holds no [thing]. *)
Inductive outcome (A : Type) : Type :=
| Returned (a : A)
| Raised (e : exn)
| RaisedUnboundLocalError.
Arguments Returned {A} a.
Arguments Raised {A} e.
Arguments RaisedUnboundLocalError {A}.

Section Document.

(** The two pandas tables [nodes] and [edges] of lines 111-116, and the
    pandas calls that build and read them. *)
Variable frames : Type.

(** Lines 111-116: [DataFrame.from_records] on the attribute dictionaries
    of the children of [element[0]] and of [element[1]], [rename] and the
    [astype] conversions, which raise on a cell they cannot convert. *)
Variable from_records :
  list (list (string * string)) -> list (list (string * string)) -> result frames.

(** Line 119: the rows of [edges.values] as [add_edges_from] unpacks
    them. *)
Variable edge_values : frames -> result (list (Z * Z)).

(** Line 122: [nodes.node_id.values]; empty when the table has no such
    column. *)
Variable node_id_values : frames -> list Z.

(** The loop of lines 109-116 over the children of the root: every
    [thing] rebinds [nodes] and [edges]; [element[0]] and [element[1]]
    raise [IndexError] on a [thing] with fewer than two children. *)
Fixpoint each_thing (elements : list Element) (tables : option frames)
  : result (option frames) :=
  match elements with
  | [] => Ok tables
  | element :: rest =>
      if String.eqb (tag_of element) "thing" then
        match children_of element with
        | c0 :: c1 :: _ =>
            match from_records (map attrib_of (children_of c0))
                               (map attrib_of (children_of c1)) with
            | Ok t => each_thing rest (Some t)
            | Raise e => Raise e
            end
        | _ => Raise IndexError
        end
      else each_thing rest tables
  end.

(** Lines 109-124 on the root element that [ET.parse] returns. *)
Definition read_nml_document (root : Element) : option (outcome (list (Z * Z))) :=
  match each_thing (children_of root) None with
  | Raise e => Some (Raised e)
  | Ok None => Some RaisedUnboundLocalError
  | Ok (Some t) =>
      match edge_values t with
      | Raise e => Some (Raised e)
      | Ok edges =>
          match NMLReader.read_nml (node_id_values t) edges with
          | Some (Ok rows) => Some (Returned rows)
          | Some (Raise e) => Some (Raised e)
          | None => None
          end
      end
  end.

End Document.

(** A walk of [n] steps of [R] from [s]. *)
Inductive walk_len (R : Z -> Z -> Prop) (s : Z) : Z -> nat -> Prop :=
| walk_here : walk_len R s s O
| walk_step x y n : walk_len R s x n -> R x y -> walk_len R s y (S n).

(** Node [x] is [d] parent links of the table away from [s]. *)
Inductive hops (rows : list (Z * Z)) (s : Z) : Z -> nat -> Prop :=
| hops_start : hops rows s s O
| hops_link c p d : child_link rows c p -> hops rows s p d -> hops rows s c (S d).

(** The state of the traversal with the level [D] of every vertex met:
    the queue holds vertices of level [k] followed by vertices of level
    [k + 1], no level exceeds [k + 1], and a vertex that has left the
    queue has all its neighbours met, at most one level further. *)
Definition levelled (G : nx.Graph) (queue seen : list Z)
    (D : Z -> nat -> Prop) (k : nat) : Prop :=
  (forall x, In x seen <-> exists d, D x d) /\
  (forall x d d', D x d -> D x d' -> d = d') /\
  (exists qa qb, queue = qa ++ qb /\
                 (forall q, In q qa -> D q k) /\ (forall q, In q qb -> D q (S k))) /\
  (forall x d, D x d -> (d <= S k)%nat) /\
  (forall x, In x seen -> ~ In x queue ->
     forall y, In y (nbrs G x) ->
       exists dx dy, D x dx /\ D y dy /\ (dy <= S dx)%nat).

Example scenario1 :
  NMLReader.read_nml [1; 2; 3] [(1, 2); (2, 3)] = Some (Ok [(1, -1); (2, 1); (3, 2)]).
Proof. reflexivity. Qed.

(** * Properties *)

(** ** Membership tests *)

Lemma mem_In x l : nx.mem x l = true <-> In x l.
Proof.
  unfold nx.mem. rewrite existsb_exists. split.
  - intros (y & Hy & E). apply Z.eqb_eq in E. now subst.
  - intros H. exists x. split; [assumption | apply Z.eqb_refl].
Qed.

Lemma mem_not_In x l : nx.mem x l = false <-> ~ In x l.
Proof.
  rewrite <- mem_In. destruct (nx.mem x l); split; intro H; congruence.
Qed.

Lemma has_dup_NoDup l : NMLReader.has_dup l = false <-> List.NoDup l.
Proof.
  induction l as [|x l IH]; simpl.
  - split; [constructor | reflexivity].
  - rewrite orb_false_iff, mem_not_In, IH. split.
    + intros [? ?]. now constructor.
    + intros H. inversion H; subst. now split.
Qed.

(** ** The graph built by [add_edges_from] *)

Section GraphFacts.

Implicit Types (G : nx.Graph) (u v x y : Z).

Lemma find_app {A} (f : A -> bool) (l1 l2 : list A) :
  find f (l1 ++ l2) =
  match find f l1 with Some a => Some a | None => find f l2 end.
Proof.
  induction l1 as [|a l1 IH]; simpl; [reflexivity|].
  now destruct (f a).
Qed.

Lemma neighbors_None G x : nx.neighbors G x = None <-> ~ In x (nx.nodes G).
Proof.
  unfold nx.neighbors, nx.nodes.
  induction G as [|[k l] G IH]; simpl.
  - tauto.
  - destruct (Z.eqb_spec k x) as [->|Hne]; simpl.
    + split; [discriminate | tauto].
    + rewrite IH. tauto.
Qed.

Lemma neighbors_Some G x :
  In x (nx.nodes G) -> exists l, nx.neighbors G x = Some l.
Proof.
  intros H. destruct (nx.neighbors G x) as [l|] eqn:E; [eauto|].
  apply neighbors_None in E. contradiction.
Qed.

Lemma nodes_add_node G u :
  nx.nodes (nx.add_node G u) =
  if nx.mem u (nx.nodes G) then nx.nodes G else nx.nodes G ++ [u].
Proof.
  unfold nx.add_node, nx.has_node.
  destruct (nx.mem u (nx.nodes G)); [reflexivity|].
  unfold nx.nodes. now rewrite map_app.
Qed.

Lemma In_nodes_add_node G u x :
  In x (nx.nodes (nx.add_node G u)) <-> In x (nx.nodes G) \/ x = u.
Proof.
  rewrite nodes_add_node. destruct (nx.mem u (nx.nodes G)) eqn:E.
  - apply mem_In in E. split; [tauto | intros [?| ->]; assumption].
  - rewrite in_app_iff. simpl. split; intros [?|?]; auto; try tauto.
    destruct H as [->|[]]. now right.
Qed.

Lemma nbrs_add_node G u x : nbrs (nx.add_node G u) x = nbrs G x.
Proof.
  unfold nx.add_node, nx.has_node.
  destruct (nx.mem u (nx.nodes G)) eqn:E; [reflexivity|].
  apply mem_not_In in E.
  unfold nbrs, nx.neighbors. rewrite find_app.
  destruct (find (λ row, fst row =? x) G) as [r|] eqn:F; [reflexivity|].
  simpl. destruct (Z.eqb_spec u x); reflexivity.
Qed.

Lemma nodes_add_nbr G u v : nx.nodes (nx.add_nbr G u v) = nx.nodes G.
Proof.
  unfold nx.nodes, nx.add_nbr. rewrite map_map. apply map_ext.
  intros [k l]. unfold nx.set_nbr. simpl. now destruct (k =? u).
Qed.

Lemma fst_set_nbr u v (row : Z * list Z) : fst (nx.set_nbr u v row) = fst row.
Proof. unfold nx.set_nbr. now destruct (fst row =? u). Qed.

Lemma neighbors_add_nbr G u v x :
  nx.neighbors (nx.add_nbr G u v) x =
  option_map (fun l => if x =? u
                       then if nx.mem v l then l else l ++ [v]
                       else l) (nx.neighbors G x).
Proof.
  unfold nx.neighbors, nx.add_nbr.
  induction G as [|[k l] G IH]; simpl; [reflexivity|].
  rewrite fst_set_nbr. simpl.
  destruct (Z.eqb_spec k x) as [->|Hkx]; simpl; [|apply IH].
  unfold nx.set_nbr. simpl. now destruct (x =? u).
Qed.

Lemma In_nbrs_add_nbr G u v x y :
  In u (nx.nodes G) ->
  In y (nbrs (nx.add_nbr G u v) x) <-> In y (nbrs G x) \/ (x = u /\ y = v).
Proof.
  intros Hu. unfold nbrs. rewrite neighbors_add_nbr.
  destruct (Z.eqb_spec x u) as [->|Hne].
  - destruct (neighbors_Some G u Hu) as [l ->]. simpl.
    destruct (nx.mem v l) eqn:M.
    + apply mem_In in M. split; [tauto | intros [?|[_ ->]]; assumption].
    + rewrite in_app_iff. simpl. split.
      * intros [?|[->|[]]]; tauto.
      * intros [?|[_ ->]]; tauto.
  - destruct (nx.neighbors G x); simpl; tauto.
Qed.

Lemma In_nodes_add_edge G a b x :
  In x (nx.nodes (nx.add_edge G (a, b))) <-> In x (nx.nodes G) \/ x = a \/ x = b.
Proof.
  unfold nx.add_edge. rewrite !nodes_add_nbr, !In_nodes_add_node. tauto.
Qed.

Lemma In_nbrs_add_edge G a b x y :
  In y (nbrs (nx.add_edge G (a, b)) x) <->
  In y (nbrs G x) \/ (x = a /\ y = b) \/ (x = b /\ y = a).
Proof.
  unfold nx.add_edge.
  rewrite In_nbrs_add_nbr, In_nbrs_add_nbr, !nbrs_add_node; [tauto| |].
  - rewrite !In_nodes_add_node. tauto.
  - rewrite nodes_add_nbr, !In_nodes_add_node. tauto.
Qed.

Lemma nodes_add_edge_prefix G e :
  exists l, nx.nodes (nx.add_edge G e) = nx.nodes G ++ l.
Proof.
  destruct e as [a b]. unfold nx.add_edge.
  rewrite !nodes_add_nbr, !nodes_add_node.
  destruct (nx.mem a (nx.nodes G)).
  - destruct (nx.mem b (nx.nodes G)); [exists []; now rewrite app_nil_r | eauto].
  - destruct (nx.mem b (nx.nodes G ++ [a])); [eauto|].
    exists [a; b]. now rewrite <- app_assoc.
Qed.

Lemma add_edges_from_cons G e es :
  nx.add_edges_from G (e :: es) = nx.add_edges_from (nx.add_edge G e) es.
Proof. reflexivity. Qed.

Lemma nodes_add_edges_from_prefix es : forall G,
  exists l, nx.nodes (nx.add_edges_from G es) = nx.nodes G ++ l.
Proof.
  induction es as [|e es IH]; intros G.
  - exists []. simpl. now rewrite app_nil_r.
  - rewrite add_edges_from_cons.
    destruct (IH (nx.add_edge G e)) as [l1 H1].
    destruct (nodes_add_edge_prefix G e) as [l2 H2].
    exists (l2 ++ l1). now rewrite H1, H2, app_assoc.
Qed.

Lemma In_nodes_add_edges_from es : forall G x,
  In x (nx.nodes (nx.add_edges_from G es)) <->
  In x (nx.nodes G) \/ exists e, In e es /\ (x = fst e \/ x = snd e).
Proof.
  induction es as [|[a b] es IH]; intros G x.
  - simpl. split; [tauto | intros [?|(? & [] & _)]; assumption].
  - rewrite add_edges_from_cons, IH, In_nodes_add_edge. simpl. split.
    + intros [[?|[?|?]]|(e & ? & ?)]; eauto.
      * right. exists (a, b). simpl. tauto.
      * right. exists (a, b). simpl. tauto.
    + intros [?|(e & [<-|?] & ?)]; simpl in *; eauto; tauto.
Qed.

Lemma In_nbrs_add_edges_from es : forall G x y,
  In y (nbrs (nx.add_edges_from G es) x) <->
  In y (nbrs G x) \/ In (x, y) es \/ In (y, x) es.
Proof.
  induction es as [|[a b] es IH]; intros G x y.
  - simpl. tauto.
  - rewrite add_edges_from_cons, IH, In_nbrs_add_edge. simpl. split.
    + intros [[?|[[-> ->]|[-> ->]]]|[?|?]]; tauto.
    + intros [?|[[E|?]|[E|?]]]; try tauto; inversion E; subst; tauto.
Qed.

End GraphFacts.

(** ** The breadth-first traversal *)

Section Expand.

Variable p : Z.

Lemma expand_seen cs : forall seen seen' es,
  nx.expand p cs seen = (seen', es) ->
  forall x, In x seen' <-> In x seen \/ In x (map snd es).
Proof.
  induction cs as [|c cs IH]; simpl; intros seen seen' es H x.
  - inversion H; subst. simpl. tauto.
  - destruct (nx.mem c seen) eqn:M; [exact (IH _ _ _ H x)|].
    destruct (nx.expand p cs (c :: seen)) as [s1 e1] eqn:E.
    inversion H; subst. rewrite (IH _ _ _ E). simpl. tauto.
Qed.

Lemma expand_fresh cs : forall seen seen' es,
  nx.expand p cs seen = (seen', es) ->
  List.NoDup (map snd es) /\ forall x, In x (map snd es) -> ~ In x seen.
Proof.
  induction cs as [|c cs IH]; simpl; intros seen seen' es H.
  - inversion H; subst. simpl. split; [constructor | tauto].
  - destruct (nx.mem c seen) eqn:M; [exact (IH _ _ _ H)|].
    destruct (nx.expand p cs (c :: seen)) as [s1 e1] eqn:E.
    inversion H; subst. destruct (IH _ _ _ E) as [ND Hf].
    apply mem_not_In in M. simpl. split.
    + constructor; [|assumption]. intros Hc. apply (Hf c Hc). now left.
    + intros x [<-|Hx]; [assumption|].
      intros Hs. apply (Hf x Hx). now right.
Qed.

Lemma expand_edges cs : forall seen seen' es,
  nx.expand p cs seen = (seen', es) ->
  forall e, In e es -> fst e = p /\ In (snd e) cs.
Proof.
  induction cs as [|c cs IH]; simpl; intros seen seen' es H e He.
  - inversion H; subst. destruct He.
  - destruct (nx.mem c seen) eqn:M.
    + destruct (IH _ _ _ H e He). tauto.
    + destruct (nx.expand p cs (c :: seen)) as [s1 e1] eqn:E.
      inversion H; subst. destruct He as [<-|He]; simpl; [tauto|].
      destruct (IH _ _ _ E e He). tauto.
Qed.

Lemma expand_children cs : forall seen seen' es,
  nx.expand p cs seen = (seen', es) ->
  forall c, In c cs -> In c seen'.
Proof.
  induction cs as [|c cs IH]; simpl; intros seen seen' es H c' Hc; [tauto|].
  destruct (nx.mem c seen) eqn:M.
  - destruct Hc as [<-|Hc]; [|now apply (IH _ _ _ H)].
    apply (proj2 (expand_seen _ _ _ _ H c)). left. now apply mem_In.
  - destruct (nx.expand p cs (c :: seen)) as [s1 e1] eqn:E.
    inversion H; subst. destruct Hc as [<-|Hc]; [|now apply (IH _ _ _ E)].
    apply (proj2 (expand_seen _ _ _ _ E c)). left. now left.
Qed.

End Expand.

Section Fuel.

Variable G : nx.Graph.

Lemma filter_length_le (f g : Z -> bool) (l : list Z) :
  (forall x, f x = true -> g x = true) ->
  (List.length (List.filter f l) <= List.length (List.filter g l))%nat.
Proof.
  intros Hfg. induction l as [|x l IH]; simpl; [lia|].
  destruct (f x) eqn:F.
  - rewrite (Hfg x F). simpl. lia.
  - destruct (g x); simpl; lia.
Qed.

Lemma filter_length_lt (f g : Z -> bool) (l : list Z) c :
  (forall x, f x = true -> g x = true) ->
  In c l -> f c = false -> g c = true ->
  (List.length (List.filter f l) < List.length (List.filter g l))%nat.
Proof.
  intros Hfg Hc Fc Gc. induction l as [|x l IH]; simpl; [destruct Hc|].
  destruct Hc as [->|Hc].
  - rewrite Fc, Gc. simpl.
    pose proof (filter_length_le f g l Hfg). lia.
  - specialize (IH Hc). destruct (f x) eqn:F.
    + rewrite (Hfg x F). simpl. lia.
    + destruct (g x); simpl; lia.
Qed.

Lemma unseen_cons_lt c seen :
  In c (nx.nodes G) -> ~ In c seen ->
  (List.length (unseen G (c :: seen)) < List.length (unseen G seen))%nat.
Proof.
  intros Hc Hs. unfold unseen. apply filter_length_lt with (c := c).
  - intros x. rewrite !negb_true_iff, !mem_not_In. simpl. tauto.
  - assumption.
  - rewrite negb_false_iff, mem_In. now left.
  - now rewrite negb_true_iff, mem_not_In.
Qed.

Lemma expand_unseen p cs : forall seen seen' es,
  (forall c, In c cs -> In c (nx.nodes G)) ->
  nx.expand p cs seen = (seen', es) ->
  (List.length es + List.length (unseen G seen') <= List.length (unseen G seen))%nat.
Proof.
  induction cs as [|c cs IH]; simpl; intros seen seen' es Hcs H.
  - inversion H; subst. simpl. lia.
  - destruct (nx.mem c seen) eqn:M.
    + apply (IH _ _ _ (fun c' Hc' => Hcs c' (or_intror Hc')) H).
    + destruct (nx.expand p cs (c :: seen)) as [s1 e1] eqn:E.
      inversion H; subst. apply mem_not_In in M.
      assert (Hlt := unseen_cons_lt c seen (Hcs c (or_introl eq_refl)) M).
      assert (Hle := IH _ _ _ (fun c' Hc' => Hcs c' (or_intror Hc')) E).
      simpl. lia.
Qed.

End Fuel.

Lemma NoDup_append (l k : list Z) :
  List.NoDup l -> List.NoDup k -> (forall x, In x l -> ~ In x k) ->
  List.NoDup (l ++ k).
Proof.
  induction l as [|a l IH]; simpl; intros Hl Hk Hd; [assumption|].
  inversion Hl; subst. constructor.
  - rewrite in_app_iff. intros [?|?]; [contradiction|].
    apply (Hd a); [now left | assumption].
  - apply IH; auto.
Qed.

Lemma descends_mono tree tree' roots roots' x :
  descends tree roots x ->
  (forall e, In e tree -> In e tree') ->
  (forall r, In r roots -> descends tree' roots' r) ->
  descends tree' roots' x.
Proof.
  intros H Ht Hr. induction H as [x Hx|p c Hpc _ IH].
  - now apply Hr.
  - eapply descends_edge; eauto.
Qed.

Section Bfs.

Variable G : nx.Graph.

Lemma bfs_loop_nil fuel seen : nx.bfs_loop fuel G [] seen = Some (Ok []).
Proof. now destruct fuel. Qed.

Lemma bfs_loop_cons fuel p q seen out :
  nx.bfs_loop fuel G (p :: q) seen = Some (Ok out) ->
  exists fuel' cs seen' es rest,
    fuel = S fuel' /\ nx.neighbors G p = Some cs /\
    nx.expand p cs seen = (seen', es) /\
    nx.bfs_loop fuel' G (q ++ map snd es) seen' = Some (Ok rest) /\
    out = es ++ rest.
Proof.
  destruct fuel as [|fuel']; simpl; [discriminate|].
  destruct (nx.neighbors G p) as [cs|] eqn:N; [|discriminate].
  destruct (nx.expand p cs seen) as [seen' es] eqn:E.
  destruct (nx.bfs_loop fuel' G (q ++ map snd es) seen') as [[rest|e]|] eqn:L;
    intros H; inversion H; subst.
  exists fuel', cs, seen', es, rest. auto.
Qed.

(** Every yielded edge leads to a neighbour of its first end. *)
Lemma bfs_loop_sound fuel : forall queue seen out,
  nx.bfs_loop fuel G queue seen = Some (Ok out) ->
  forall e, In e out -> In (snd e) (nbrs G (fst e)).
Proof.
  induction fuel as [|fuel IH]; intros [|p q] seen out H e He.
  - inversion H; subst. destruct He.
  - discriminate.
  - rewrite bfs_loop_nil in H. inversion H; subst. destruct He.
  - apply bfs_loop_cons in H as (f' & cs & seen' & es & rest & Hf & N & E & L & ->).
    inversion Hf; subst f'. apply in_app_iff in He as [He|He].
    + destruct (expand_edges _ _ _ _ _ E e He) as [-> Hc].
      unfold nbrs. now rewrite N.
    + eapply IH; eauto.
Qed.

(** No vertex is yielded twice, and none that had been seen. *)
Lemma bfs_loop_fresh fuel : forall queue seen out,
  nx.bfs_loop fuel G queue seen = Some (Ok out) ->
  List.NoDup (map snd out) /\ forall x, In x (map snd out) -> ~ In x seen.
Proof.
  induction fuel as [|fuel IH]; intros [|p q] seen out H.
  - inversion H; subst. simpl. split; [constructor | tauto].
  - discriminate.
  - rewrite bfs_loop_nil in H. inversion H; subst. simpl.
    split; [constructor | tauto].
  - apply bfs_loop_cons in H as (f' & cs & seen' & es & rest & Hf & N & E & L & ->).
    inversion Hf; subst f'.
    destruct (expand_fresh _ _ _ _ _ E) as [ND1 F1].
    destruct (IH _ _ _ L) as [ND2 F2].
    pose proof (expand_seen _ _ _ _ _ E) as S.
    rewrite map_app. split.
    + apply NoDup_append; auto.
      intros x Hx Hx'. apply (F2 x Hx'). apply S. now right.
    + intros x Hx. apply in_app_iff in Hx as [Hx|Hx]; [now apply F1|].
      intros Hs. apply (F2 x Hx). apply S. now left.
Qed.

(** Every yielded vertex hangs, through yielded edges, below a vertex
    of the queue. *)
Lemma bfs_loop_descends fuel : forall queue seen out,
  nx.bfs_loop fuel G queue seen = Some (Ok out) ->
  forall x, In x (map snd out) -> descends out queue x.
Proof.
  induction fuel as [|fuel IH]; intros [|p q] seen out H x Hx.
  - inversion H; subst. destruct Hx.
  - discriminate.
  - rewrite bfs_loop_nil in H. inversion H; subst. destruct Hx.
  - apply bfs_loop_cons in H as (f' & cs & seen' & es & rest & Hf & N & E & L & ->).
    inversion Hf; subst f'.
    assert (Hes : forall c, In c (map snd es) -> descends (es ++ rest) (p :: q) c).
    { intros c Hc. apply in_map_iff in Hc as ([p' c'] & <- & He).
      destruct (expand_edges _ _ _ _ _ E _ He) as [Hp _]. simpl in *. subst p'.
      apply descends_edge with (p := p).
      - apply in_app_iff. now left.
      - apply descends_root. now left. }
    rewrite map_app in Hx. apply in_app_iff in Hx as [Hx|Hx]; [now apply Hes|].
    apply (descends_mono rest (es ++ rest) (q ++ map snd es) (p :: q)).
    + eapply IH; eauto.
    + intros e He. apply in_app_iff. now right.
    + intros r Hr. apply in_app_iff in Hr as [Hr|Hr]; [|now apply Hes].
      apply descends_root. now right.
Qed.

(** When the traversal ends, the vertices met are closed under taking
    neighbours. *)
Lemma bfs_loop_closed fuel : forall queue seen out,
  nx.bfs_loop fuel G queue seen = Some (Ok out) ->
  (forall x, In x seen ->
             In x queue \/ forall y, In y (nbrs G x) -> In y seen) ->
  forall x, In x seen \/ In x (map snd out) ->
  forall y, In y (nbrs G x) -> In y seen \/ In y (map snd out).
Proof.
  induction fuel as [|fuel IH]; intros [|p q] seen out H Inv x Hx y Hy.
  - inversion H; subst. simpl in *. destruct Hx as [Hx|[]].
    destruct (Inv x Hx) as [[]|Hc]. left. now apply Hc.
  - discriminate.
  - rewrite bfs_loop_nil in H. inversion H; subst. simpl in *.
    destruct Hx as [Hx|[]]. destruct (Inv x Hx) as [[]|Hc]. left. now apply Hc.
  - apply bfs_loop_cons in H as (f' & cs & seen' & es & rest & Hf & N & E & L & ->).
    inversion Hf; subst f'.
    pose proof (expand_seen _ _ _ _ _ E) as S.
    pose proof (expand_children _ _ _ _ _ E) as C.
    assert (Inv' : forall x, In x seen' ->
              In x (q ++ map snd es) \/ forall y, In y (nbrs G x) -> In y seen').
    { intros z Hz. apply S in Hz as [Hz|Hz].
      - destruct (Inv z Hz) as [[<-|Hq]|Hc].
        + right. intros w Hw. apply C. unfold nbrs in Hw. now rewrite N in Hw.
        + left. apply in_app_iff. now left.
        + right. intros w Hw. apply S. left. now apply Hc.
      - left. apply in_app_iff. now right. }
    rewrite map_app, in_app_iff in *.
    assert (Hx' : In x seen' \/ In x (map snd rest)).
    { rewrite S. tauto. }
    destruct (IH _ _ _ L Inv' x Hx' y Hy) as [Hs|Hr]; [|tauto].
    apply S in Hs. tauto.
Qed.

(** With one unit of fuel for every queued and every unmet vertex the
    traversal runs to its end. *)
Lemma bfs_loop_total fuel : forall queue seen,
  (forall x y, In y (nbrs G x) -> In y (nx.nodes G)) ->
  (forall x, In x queue -> In x (nx.nodes G)) ->
  (List.length queue + List.length (unseen G seen) <= fuel)%nat ->
  exists out, nx.bfs_loop fuel G queue seen = Some (Ok out).
Proof.
  induction fuel as [|fuel IH]; intros [|p q] seen WF Hq Hlen.
  - now exists [].
  - simpl in Hlen. lia.
  - exists []. apply bfs_loop_nil.
  - simpl.
    destruct (neighbors_Some G p (Hq p (or_introl eq_refl))) as [cs N].
    rewrite N.
    destruct (nx.expand p cs seen) as [seen' es] eqn:E.
    assert (Hcs : forall c, In c cs -> In c (nx.nodes G)).
    { intros c Hc. apply (WF p). unfold nbrs. now rewrite N. }
    destruct (IH (q ++ map snd es) seen' WF) as [rest ->].
    + intros x Hx. apply in_app_iff in Hx as [Hx|Hx].
      * apply Hq. now right.
      * apply in_map_iff in Hx as (e & <- & He).
        apply Hcs. now destruct (expand_edges _ _ _ _ _ E e He).
    + pose proof (expand_unseen G p cs seen seen' es Hcs E).
      rewrite length_app, length_map. simpl in Hlen. lia.
    + eauto.
Qed.

End Bfs.

Lemma filter_length_drop (f : Z -> bool) (l : list Z) c :
  In c l -> f c = false ->
  (List.length (List.filter f l) < List.length l)%nat.
Proof.
  intros Hc Fc. induction l as [|x l IH]; simpl; [destruct Hc|].
  destruct Hc as [->|Hc].
  - rewrite Fc. pose proof (List.filter_length_le f l). lia.
  - specialize (IH Hc). destruct (f x); simpl; lia.
Qed.

(** [bfs_edges] returns, and what it returns is a tree below [source]
    that reaches whatever the graph reaches. *)
Lemma bfs_edges_spec G source :
  (forall x y, In y (nbrs G x) -> In y (nx.nodes G)) ->
  In source (nx.nodes G) ->
  exists tree,
    nx.bfs_edges G source = Some (Ok tree) /\
    (forall e, In e tree -> In (snd e) (nbrs G (fst e))) /\
    List.NoDup (map snd tree) /\
    ~ In source (map snd tree) /\
    (forall x, In x (map snd tree) -> descends tree [source] x) /\
    (forall x, x = source \/ In x (map snd tree) ->
     forall y, In y (nbrs G x) -> y = source \/ In y (map snd tree)).
Proof.
  intros WF Hs. unfold nx.bfs_edges.
  destruct (bfs_loop_total G (List.length G) [source] [source] WF) as [tree H].
  - intros x [<-|[]]. assumption.
  - assert (Hlt : (List.length (unseen G [source]) < List.length (nx.nodes G))%nat).
    { unfold unseen. apply filter_length_drop with (c := source); [assumption|].
      rewrite negb_false_iff, mem_In. now left. }
    assert (Hn : List.length (nx.nodes G) = List.length G).
    { unfold nx.nodes. apply List.length_map. }
    simpl. lia.
  - exists tree. split; [assumption|].
    destruct (bfs_loop_fresh G _ _ _ _ H) as [ND F].
    repeat split.
    + eapply bfs_loop_sound; eauto.
    + assumption.
    + intros Hin. apply (F source Hin). now left.
    + eapply bfs_loop_descends; eauto.
    + intros x Hx y Hy.
      assert (Hc : In y [source] \/ In y (map snd tree)).
      { apply (bfs_loop_closed G _ _ _ _ H) with (x := x).
        - intros z [<-|[]]. left. now left.
        - destruct Hx as [->|Hx]; [left; now left | now right].
        - assumption. }
      destruct Hc as [[<-|[]]|Hc]; tauto.
Qed.

(** ** The graph of an edge table *)

Section EdgeTable.

Variable edges : list (Z * Z).
Let G := nx.add_edges_from nx.empty edges.

Lemma nbrs_adjacent x y : In y (nbrs G x) <-> adjacent edges x y.
Proof.
  unfold G. rewrite In_nbrs_add_edges_from. unfold adjacent. simpl. tauto.
Qed.

Lemma nodes_endpoints x :
  In x (nx.nodes G) <-> exists e, In e edges /\ (x = fst e \/ x = snd e).
Proof.
  unfold G. rewrite In_nodes_add_edges_from. simpl. tauto.
Qed.

Lemma graph_closed x y : In y (nbrs G x) -> In y (nx.nodes G).
Proof.
  rewrite nbrs_adjacent, nodes_endpoints. intros [H|H].
  - exists (x, y). simpl. tauto.
  - exists (y, x). simpl. tauto.
Qed.

End EdgeTable.

Lemma first_node_cons e es :
  NMLReader.first_node (nx.add_edges_from nx.empty (e :: es)) = Ok (fst e).
Proof.
  rewrite add_edges_from_cons.
  destruct (nodes_add_edges_from_prefix es (nx.add_edge nx.empty e)) as [l Hl].
  unfold NMLReader.first_node. rewrite Hl. destruct e as [a b].
  unfold nx.add_edge. rewrite !nodes_add_nbr, !nodes_add_node. simpl.
  now destruct (b =? a).
Qed.

Lemma bfs_start_cons e es : NMLReader.bfs_start (e :: es) = Ok (fst e).
Proof. apply first_node_cons. Qed.

(** ** The parent column *)

Lemma source_of_edge tree p c :
  List.NoDup (map snd tree) -> In (p, c) tree -> NMLReader.source_of tree c = p.
Proof.
  unfold NMLReader.source_of. induction tree as [|[p' c'] tree IH]; simpl.
  - intros _ [].
  - intros ND [E|Hin]; inversion ND; subst.
    + inversion E; subst. now rewrite Z.eqb_refl.
    + destruct (Z.eqb_spec c' c) as [->|Hne].
      * exfalso. apply H1. apply in_map_iff. now exists (p, c).
      * now apply IH.
Qed.

Lemma source_of_no_target tree c :
  ~ In c (map snd tree) -> NMLReader.source_of tree c = NONE.
Proof.
  unfold NMLReader.source_of. induction tree as [|[p' c'] tree IH]; simpl.
  - reflexivity.
  - intros H. destruct (Z.eqb_spec c' c) as [->|Hne]; [tauto|].
    apply IH. tauto.
Qed.

Lemma source_of_target tree c :
  In c (map snd tree) -> In (NMLReader.source_of tree c, c) tree.
Proof.
  unfold NMLReader.source_of. induction tree as [|[p' c'] tree IH]; simpl.
  - intros [].
  - intros H. destruct (Z.eqb_spec c' c) as [->|Hne]; simpl; [now left|].
    right. apply IH. destruct H; [congruence | assumption].
Qed.

Lemma source_of_cases tree c :
  NMLReader.source_of tree c = NONE \/ In (NMLReader.source_of tree c, c) tree.
Proof.
  destruct (in_dec Z.eq_dec c (map snd tree)) as [H|H].
  - right. now apply source_of_target.
  - left. now apply source_of_no_target.
Qed.

(** A float64 holds the identifiers up to [2^53] as they are. *)
Lemma float64_of_int_exact z : float64_exact z -> float64_of_int z = z.
Proof.
  unfold float64_exact, float64_of_int. intros H.
  destruct (Z.leb_spec (Z.abs z) (2 ^ 53)); [reflexivity | lia].
Qed.

Lemma has_nan_true tree ids :
  NMLReader.has_nan tree ids = true <->
  exists n, In n ids /\ ~ In n (map snd tree).
Proof.
  unfold NMLReader.has_nan. rewrite existsb_exists.
  split; intros (n & Hn & H); exists n; (split; [assumption|]).
  - apply mem_not_In. now apply negb_true_iff.
  - apply negb_true_iff. now apply mem_not_In.
Qed.

(** The label of a row that [reindex] leaves empty gets [-1], whatever
    the type of the column. *)
Lemma parent_id_no_target tree ids c :
  ~ In c (map snd tree) -> NMLReader.parent_id tree ids c = NONE.
Proof.
  intros H. unfold NMLReader.parent_id. rewrite (source_of_no_target _ _ H).
  now destruct (NMLReader.has_nan tree ids).
Qed.

(** Nothing is lost in the parent column when a float64 holds the
    sources of the tree as they are. *)
Lemma parent_id_exact tree ids c :
  (forall p c', In (p, c') tree -> float64_exact p) ->
  NMLReader.parent_id tree ids c = NMLReader.source_of tree c.
Proof.
  intros Hex. unfold NMLReader.parent_id.
  destruct (NMLReader.has_nan tree ids); [|reflexivity].
  apply float64_of_int_exact.
  destruct (source_of_cases tree c) as [->|H]; [unfold float64_exact, NONE; lia|].
  now apply Hex in H.
Qed.

(** The column is the same for two trees that give the labels the same
    predecessors and leave the same labels empty. *)
Lemma parent_id_ext tree tree' ids :
  (forall n, In n ids -> (In n (map snd tree) <-> In n (map snd tree'))) ->
  (forall n, In n ids -> NMLReader.source_of tree n = NMLReader.source_of tree' n) ->
  forall n, In n ids -> NMLReader.parent_id tree ids n = NMLReader.parent_id tree' ids n.
Proof.
  intros Ht Hs n Hn. unfold NMLReader.parent_id. rewrite (Hs n Hn).
  replace (NMLReader.has_nan tree' ids) with (NMLReader.has_nan tree ids); [reflexivity|].
  unfold NMLReader.has_nan. clear n Hn Hs.
  induction ids as [|m ids IH]; simpl; [reflexivity|].
  rewrite IH by (intros n Hn; apply Ht; now right). f_equal. f_equal.
  specialize (Ht m (or_introl eq_refl)).
  destruct (nx.mem m (map snd tree)) eqn:M, (nx.mem m (map snd tree')) eqn:M';
    try reflexivity.
  - apply mem_In in M. apply mem_not_In in M'. tauto.
  - apply mem_not_In in M. apply mem_In in M'. tauto.
Qed.

Lemma combine_map_self (f : Z -> Z) (l : list Z) :
  combine l (map f l) = map (fun n => (n, f n)) l.
Proof. induction l as [|x l IH]; simpl; [reflexivity | now rewrite IH]. Qed.

Lemma In_insert_row r r0 rows :
  In r (NMLReader.insert_row r0 rows) <-> r = r0 \/ In r rows.
Proof.
  induction rows as [|r' rows IH]; simpl.
  - intuition congruence.
  - destruct (fst r0 <=? fst r'); simpl; [intuition congruence|].
    rewrite IH. intuition congruence.
Qed.

Lemma In_sort_values r rows :
  In r (NMLReader.sort_values rows) <-> In r rows.
Proof.
  unfold NMLReader.sort_values. induction rows as [|r' rows IH]; simpl; [tauto|].
  rewrite In_insert_row, IH. intuition congruence.
Qed.

(** The table of rows lists, for every node of the node table and for no
    other, the parent [f] computes. *)
Lemma parent_of_table (f : Z -> Z) ids n :
  NMLReader.parent_of (NMLReader.sort_values (combine ids (map f ids))) n =
  if nx.mem n ids then Some (f n) else None.
Proof.
  rewrite combine_map_self. unfold NMLReader.parent_of.
  destruct (find _ _) as [r|] eqn:F.
  - destruct (find_some _ _ F) as [Hin Hr]. apply Z.eqb_eq in Hr.
    apply In_sort_values, in_map_iff in Hin as (m & <- & Hm). simpl in *. subst m.
    apply mem_In in Hm. now rewrite Hm.
  - destruct (nx.mem n ids) eqn:M; [|reflexivity]. apply mem_In in M.
    pose proof (find_none _ _ F (n, f n)) as Hn. simpl in Hn.
    rewrite Z.eqb_refl in Hn. discriminate Hn.
    apply In_sort_values, in_map_iff. now exists n.
Qed.

(** [read_nml] returns whenever there is an edge and a node; the tree it
    uses is the breadth-first tree of the edge table from the first end
    of its first row. *)
Lemma read_nml_spec node_ids e es :
  node_ids <> [] ->
  exists tree,
    nx.bfs_edges (nx.add_edges_from nx.empty (e :: es)) (fst e) = Some (Ok tree) /\
    NMLReader.read_nml node_ids (e :: es) =
      Some (Ok (NMLReader.sort_values
                  (combine node_ids
                     (map (NMLReader.parent_id tree node_ids) node_ids)))) /\
    (forall p c, In (p, c) tree -> adjacent (e :: es) p c) /\
    List.NoDup (map snd tree) /\
    ~ In (fst e) (map snd tree) /\
    (forall x, In x (map snd tree) -> descends tree [fst e] x) /\
    (forall x, clos_refl_trans Z (adjacent (e :: es)) (fst e) x ->
               x = fst e \/ In x (map snd tree)).
Proof.
  intros Hne. set (edges := e :: es). set (G := nx.add_edges_from nx.empty edges).
  assert (Hs : In (fst e) (nx.nodes G)).
  { apply nodes_endpoints. exists e. split; [now left | now left]. }
  destruct (bfs_edges_spec G (fst e) (graph_closed edges) Hs)
    as (tree & Hb & Hsound & ND & Hroot & Hdesc & Hclosed).
  exists tree. repeat split; try assumption.
  - unfold NMLReader.read_nml. fold edges. fold G.
    unfold G, edges at 1. rewrite first_node_cons. fold edges. fold G.
    unfold nx.bfs_tree_edges. rewrite Hb.
    destruct node_ids as [|n ids]; [congruence|].
    unfold NMLReader.reindex.
    apply has_dup_NoDup in ND. rewrite ND. reflexivity.
  - intros p c Hpc. apply nbrs_adjacent. apply (Hsound (p, c) Hpc).
  - intros x Hx. apply clos_rt_rtn1 in Hx. induction Hx as [|y z Hyz _ IH].
    + now left.
    + apply (Hclosed y IH z). now apply nbrs_adjacent.
Qed.

Lemma adjacent_exact edges p c :
  exact_edges edges -> adjacent edges p c -> float64_exact p /\ float64_exact c.
Proof. intros Hex [H|H]; apply Hex in H; tauto. Qed.

Lemma map_ext_In_Z (f g : Z -> Z) (l : list Z) :
  (forall n, In n l -> f n = g n) -> map f l = map g l.
Proof.
  induction l as [|x l IH]; simpl; intros H; [reflexivity|].
  rewrite (H x) by now left. f_equal. apply IH. intros n Hn. apply H. now right.
Qed.

(** With identifiers that a float64 holds as they are, the parent
    column holds the predecessors of the tree. *)
Lemma read_nml_spec_exact node_ids e es :
  node_ids <> [] ->
  exact_edges (e :: es) ->
  exists tree,
    nx.bfs_edges (nx.add_edges_from nx.empty (e :: es)) (fst e) = Some (Ok tree) /\
    NMLReader.read_nml node_ids (e :: es) =
      Some (Ok (NMLReader.sort_values
                  (combine node_ids (map (NMLReader.source_of tree) node_ids)))) /\
    (forall p c, In (p, c) tree -> adjacent (e :: es) p c) /\
    List.NoDup (map snd tree) /\
    ~ In (fst e) (map snd tree) /\
    (forall x, In x (map snd tree) -> descends tree [fst e] x) /\
    (forall x, clos_refl_trans Z (adjacent (e :: es)) (fst e) x ->
               x = fst e \/ In x (map snd tree)).
Proof.
  intros Hne Hex.
  destruct (read_nml_spec node_ids e es Hne) as (tree & Hb & Hr & Hsound & Hrest).
  exists tree. split; [assumption|]. split; [|split; assumption].
  rewrite Hr. do 4 f_equal. apply map_ext_In_Z. intros n _.
  apply parent_id_exact. intros p c Hpc.
  apply Hsound in Hpc. now apply (adjacent_exact _ _ _ Hex) in Hpc.
Qed.

(** A table of identifiers up to [2^53], checked by computation. *)
Lemma exact_edges_check edges :
  forallb (fun e => (Z.abs (fst e) <=? 2 ^ 53) && (Z.abs (snd e) <=? 2 ^ 53)) edges
  = true ->
  exact_edges edges.
Proof.
  intros H u v Huv. rewrite forallb_forall in H. apply H in Huv. simpl in Huv.
  apply andb_true_iff in Huv as [Hu Hv]. apply Z.leb_le in Hu, Hv.
  now split.
Qed.

(** ** Walks and simple paths *)

Lemma last_suffix_gen {A} (l1 l2 : list A) d d' :
  l2 <> [] -> List.last (l1 ++ l2) d = List.last l2 d'.
Proof.
  intros Hne. induction l1 as [|x l1 IH]; simpl.
  - destruct l2 as [|y l2]; [congruence|]. clear Hne.
    revert y. induction l2 as [|z l2 IH2]; intros y; [reflexivity|].
    change (List.last (z :: l2) d = List.last (z :: l2) d'). apply IH2.
  - destruct (l1 ++ l2) eqn:E; [|exact IH].
    destruct l1; simpl in E; [congruence | discriminate].
Qed.

Section Paths.

Variable R : Z -> Z -> Prop.

Lemma is_path_suffix l1 l2 : is_path R (l1 ++ l2) -> is_path R l2.
Proof.
  induction l1 as [|x l1 IH]; simpl; [tauto|].
  destruct (l1 ++ l2) eqn:E; [|tauto].
  intros _. destruct l1; simpl in E; [subst; exact I | discriminate].
Qed.

Lemma last_suffix (l1 l2 : list Z) d d' :
  l2 <> [] -> List.last (l1 ++ l2) d = List.last l2 d'.
Proof. apply last_suffix_gen. Qed.

Lemma NoDup_suffix (l1 l2 : list Z) : List.NoDup (l1 ++ l2) -> List.NoDup l2.
Proof.
  induction l1 as [|x l1 IH]; simpl; [tauto|].
  intros H. inversion H; subst. auto.
Qed.

(** A walk can be cut down to a path that visits no vertex twice. *)
Lemma simple_path a b :
  clos_refl_trans_1n Z R a b ->
  exists l, is_path R (a :: l) /\ List.last (a :: l) a = b /\ List.NoDup (a :: l).
Proof.
  induction 1 as [x|x y z Hxy _ (l & Hp & Hl & Hn)].
  - exists []. simpl. repeat split. constructor; [tauto | constructor].
  - destruct (in_dec Z.eq_dec x (y :: l)) as [Hin|Hout].
    + apply in_split in Hin as (l1 & l2 & E). exists l2. rewrite E in *.
      split; [|split].
      * eapply is_path_suffix; eauto.
      * rewrite <- Hl. symmetry. apply last_suffix. discriminate.
      * eapply NoDup_suffix; eauto.
    + exists (y :: l). split; [|split].
      * simpl. split; assumption.
      * rewrite <- Hl. apply (last_suffix [x] (y :: l)). discriminate.
      * now constructor.
Qed.

End Paths.

Lemma is_path_mono (R R' : Z -> Z -> Prop) l :
  (forall x y, R x y -> R' x y) -> is_path R l -> is_path R' l.
Proof.
  intros HR. induction l as [|x l IH]; simpl; [tauto|].
  destruct l as [|y l]; [tauto|]. intros [Hxy Hp]. split; auto.
Qed.

Lemma adjacent_sym edges x y : adjacent edges x y -> adjacent edges y x.
Proof. unfold adjacent. tauto. Qed.

Lemma descends_walk tree s x :
  descends tree [s] x -> clos_refl_trans Z (adjacent tree) x s.
Proof.
  induction 1 as [x [<-|[]]|p c Hpc _ IH].
  - apply rt_refl.
  - eapply rt_trans; [|exact IH]. apply rt_step. now right.
Qed.

Lemma walk_sym edges x y :
  clos_refl_trans Z (adjacent edges) x y -> clos_refl_trans Z (adjacent edges) y x.
Proof.
  induction 1 as [x y H|x|x y z _ IH1 _ IH2].
  - apply rt_step. now apply adjacent_sym.
  - apply rt_refl.
  - eapply rt_trans; eauto.
Qed.

(** In an acyclic graph every edge between two vertices of the
    breadth-first tree is an edge of that tree. *)
Lemma tree_edge_of_acyclic edges tree s u v :
  acyclic edges ->
  (forall p c, In (p, c) tree -> adjacent edges p c) ->
  (forall x, In x (map snd tree) -> descends tree [s] x) ->
  u = s \/ In u (map snd tree) ->
  v = s \/ In v (map snd tree) ->
  adjacent edges u v ->
  adjacent tree u v.
Proof.
  intros [Hloop Hcyc] Hsound Hdesc Hu Hv Huv.
  assert (Hw : forall x, x = s \/ In x (map snd tree) ->
                         clos_refl_trans Z (adjacent tree) x s).
  { intros x [->|Hx]; [apply rt_refl | apply descends_walk; auto]. }
  assert (Huv' : clos_refl_trans Z (adjacent tree) u v).
  { eapply rt_trans; [apply Hw, Hu | apply walk_sym, Hw, Hv]. }
  apply clos_rt_rt1n, simple_path in Huv' as (l & Hp & Hl & Hn).
  destruct l as [|x [|y l]].
  - simpl in Hl. subst v. destruct (Hloop u Huv).
  - simpl in Hl, Hp. subst x. tauto.
  - exfalso. apply (Hcyc (u :: x :: y :: l)). split; [|split; [|split]].
    + simpl. lia.
    + assumption.
    + apply is_path_mono with (R := adjacent tree); [|assumption].
      intros a b [H|H]; [apply Hsound, H | apply adjacent_sym, Hsound, H].
    + assert (E : List.last (u :: x :: y :: l) 0 = List.last (u :: x :: y :: l) u).
      { apply (last_suffix [] (u :: x :: y :: l)). discriminate. }
      rewrite E, Hl. simpl. now apply adjacent_sym.
Qed.

(** [read_nml] always returns: with a result or with an exception, never
    for want of fuel. *)
Lemma read_nml_returns node_ids edges :
  exists r, NMLReader.read_nml node_ids edges = Some r.
Proof.
  destruct edges as [|e es]; [now exists (Raise IndexError)|].
  destruct node_ids as [|n ids].
  - destruct (read_nml_spec [0] e es) as (tree & Hb & _); [discriminate|].
    unfold NMLReader.read_nml. rewrite first_node_cons.
    unfold nx.bfs_tree_edges. rewrite Hb. eauto.
  - destruct (read_nml_spec (n :: ids) e es) as (tree & _ & Hr & _); [discriminate|].
    eauto.
Qed.

(** * The claims about [read_nml] *)

(** C1: for the node set {1,2,3}, in whatever order the node table lists
    it, and the edge set {(1,2),(2,3)} written so that the traversal
    starts at node 1 (the first row is (1,2)), [read_nml] produces exactly
    the mapping parent(1) = NONE (-1), parent(2) = 1, parent(3) = 2. *)
Theorem read_nml_scenario1 node_ids edges :
  (forall n, In n node_ids <-> n = 1 \/ n = 2 \/ n = 3) ->
  edges = [(1, 2); (2, 3)] \/ edges = [(1, 2); (3, 2)] ->
  NMLReader.bfs_start edges = Ok 1 /\
  exists rows,
    NMLReader.read_nml node_ids edges = Some (Ok rows) /\
    NMLReader.parent_of rows 1 = Some NONE /\
    NMLReader.parent_of rows 2 = Some 1 /\
    NMLReader.parent_of rows 3 = Some 2 /\
    forall n, n <> 1 -> n <> 2 -> n <> 3 -> NMLReader.parent_of rows n = None.
Proof.
  intros Hids Hedges.
  assert (Hne : node_ids <> []).
  { intros ->. destruct (Hids 1) as [_ H]. apply H. now left. }
  assert (Hmem : forall n, nx.mem n node_ids = true <-> n = 1 \/ n = 2 \/ n = 3).
  { intros n. now rewrite mem_In. }
  assert (Hnot : forall n, n <> 1 -> n <> 2 -> n <> 3 -> nx.mem n node_ids = false).
  { intros n ? ? ?. apply mem_not_In. rewrite Hids. tauto. }
  destruct Hedges as [-> | ->];
    (split; [reflexivity|]);
    match goal with
    | |- context [NMLReader.read_nml _ (?e :: ?es)] =>
        destruct (read_nml_spec_exact node_ids e es Hne) as (tree & Hb & Hr & _);
        [intros u v [E|[E|[]]]; inversion E; subst;
         unfold float64_exact; simpl; split; lia|]
    end;
    vm_compute in Hb; inversion Hb; subst tree;
    eexists; (split; [exact Hr|]);
    rewrite !parent_of_table;
    rewrite (proj2 (Hmem 1)), (proj2 (Hmem 2)), (proj2 (Hmem 3)) by tauto;
    repeat split; try reflexivity;
    intros n H1 H2 H3; rewrite parent_of_table, (Hnot n) by assumption;
    reflexivity.
Qed.

Lemma read_nml_scenario1_witness :
  NMLReader.read_nml [1; 2; 3] [(1, 2); (2, 3)]
  = Some (Ok [(1, NONE); (2, 1); (3, 2)]) /\
  NMLReader.bfs_start [(1, 2); (2, 3)] = Ok 1 /\
  exists rows,
    NMLReader.read_nml [1; 2; 3] [(1, 2); (2, 3)] = Some (Ok rows) /\
    NMLReader.parent_of rows 1 = Some NONE /\
    NMLReader.parent_of rows 2 = Some 1 /\
    NMLReader.parent_of rows 3 = Some 2 /\
    forall n, n <> 1 -> n <> 2 -> n <> 3 -> NMLReader.parent_of rows n = None.
Proof.
  split; [reflexivity|].
  apply (read_nml_scenario1 [1; 2; 3] [(1, 2); (2, 3)]).
  - intros n. simpl. intuition congruence.
  - now left.
Defined.

(** The chain 1 - 2 - 3 is a valid input. *)
Lemma valid_tree_chain : valid_tree [1; 2; 3] [(1, 2); (2, 3)].
Proof.
  split; [|split; [|split; [|split]]].
  - repeat constructor; simpl; intuition lia.
  - intros u v [E|[E|[]]]; inversion E; subst; simpl; tauto.
  - assert (H12 : adjacent [(1, 2); (2, 3)] 1 2) by (left; simpl; tauto).
    assert (H23 : adjacent [(1, 2); (2, 3)] 2 3) by (left; simpl; tauto).
    assert (W12 := rt_step _ _ _ _ H12). assert (W23 := rt_step _ _ _ _ H23).
    assert (W13 := rt_trans _ _ _ _ _ W12 W23).
    intros a b [<-|[<-|[<-|[]]]] [<-|[<-|[<-|[]]]];
      try apply rt_refl; try assumption; now apply walk_sym.
  - intros u [H|H]; simpl in H; destruct H as [E|[E|[]]]; inversion E; lia.
  - intros l (Hlen & Hn & Hp & Hc).
    destruct l as [|a [|b [|c l]]]; simpl in Hlen; try lia.
    destruct Hp as [Hab [Hbc Hp]].
    inversion Hn as [|? ? Ha Hn']; subst. inversion Hn' as [|? ? Hb Hn'']; subst.
    inversion Hn'' as [|? ? Hc' _]; subst. simpl in Ha, Hb.
    assert (Hend : forall x y, adjacent [(1, 2); (2, 3)] x y ->
              (x = 1 /\ y = 2) \/ (x = 2 /\ y = 3) \/ (x = 2 /\ y = 1) \/ (x = 3 /\ y = 2)).
    { intros x y [H|H]; simpl in H; destruct H as [E|[E|[]]]; inversion E; tauto. }
    destruct l as [|d l].
    + simpl in Hc. apply Hend in Hab, Hbc, Hc. intuition lia.
    + destruct Hp as [Hcd _]. simpl in Ha, Hb, Hc'.
      apply Hend in Hab, Hbc, Hcd. intuition lia.
Qed.

(** The nodes -1 and 5 joined by one edge are a valid input, and so is a
    single node without an edge. *)
Lemma valid_tree_sentinel_id : valid_tree [NONE; 5] [(NONE, 5)].
Proof.
  unfold NONE. split; [|split; [|split; [|split]]].
  - repeat constructor; simpl; intuition lia.
  - intros u v [E|[]]; inversion E; subst; simpl; tauto.
  - assert (H : adjacent [(-1, 5)] (-1) 5) by (left; simpl; tauto).
    assert (W := rt_step _ _ _ _ H).
    intros a b [<-|[<-|[]]] [<-|[<-|[]]];
      try apply rt_refl; try assumption; now apply walk_sym.
  - intros u [H|H]; simpl in H; destruct H as [E|[]]; inversion E; lia.
  - intros l (Hlen & Hn & Hp & Hc).
    destruct l as [|a [|b [|c l]]]; simpl in Hlen; try lia.
    destruct Hp as [Hab [Hbc _]].
    inversion Hn as [|? ? Ha _]; subst. simpl in Ha.
    assert (Hend : forall x y, adjacent [(-1, 5)] x y ->
              (x = -1 /\ y = 5) \/ (x = 5 /\ y = -1)).
    { intros x y [H|H]; simpl in H; destruct H as [E|[]]; inversion E; tauto. }
    apply Hend in Hab, Hbc. intuition lia.
Qed.

Lemma valid_tree_single_node : valid_tree [1] [].
Proof.
  split; [|split; [|split; [|split]]].
  - repeat constructor. simpl. tauto.
  - intros u v [].
  - intros a b [<-|[]] [<-|[]]. apply rt_refl.
  - intros u [[]|[]].
  - intros l (Hlen & _ & Hp & _).
    destruct l as [|a [|b l]]; simpl in Hlen; try lia.
    destruct Hp as [[[]|[]] _].
Qed.

(** Two nodes joined by one edge are a valid input. *)
Lemma valid_tree_one_edge a b : a <> b -> valid_tree [a; b] [(a, b)].
Proof.
  intros Hab. split; [|split; [|split; [|split]]].
  - repeat constructor; simpl; intuition congruence.
  - intros u v [E|[]]; inversion E; subst; simpl; tauto.
  - assert (H : adjacent [(a, b)] a b) by (left; simpl; tauto).
    assert (W := rt_step _ _ _ _ H).
    intros x y [<-|[<-|[]]] [<-|[<-|[]]];
      try apply rt_refl; try assumption; now apply walk_sym.
  - intros u [H|H]; simpl in H; destruct H as [E|[]]; inversion E; congruence.
  - intros l (Hlen & Hn & Hp & Hc).
    destruct l as [|x [|y [|z l]]]; simpl in Hlen; try lia.
    destruct Hp as [Hxy [Hyz _]].
    inversion Hn as [|? ? Hx _]; subst. simpl in Hx.
    assert (Hend : forall x y, adjacent [(a, b)] x y ->
              (x = a /\ y = b) \/ (x = b /\ y = a)).
    { intros x' y' [H|H]; simpl in H; destruct H as [E|[]]; inversion E; tauto. }
    apply Hend in Hxy, Hyz. intuition congruence.
Qed.

(** The edges of a table over identifiers that a float64 holds as they
    are. *)
Lemma edges_over_exact node_ids edges :
  edges_over node_ids edges ->
  (forall n, In n node_ids -> float64_exact n) ->
  exact_edges edges.
Proof. intros Hover Hex u v Huv. destruct (Hover u v Huv). split; now apply Hex. Qed.

(** C2, as stated, fails: in the valid tree with the nodes -1 and 5 and
    the edge (-1,5) both nodes end with parent -1, the root because it
    has no parent and node 5 because its parent is the node -1; for the
    valid tree that is a single node without an edge [read_nml] raises
    [IndexError] instead of returning a mapping; and in the valid tree
    with the nodes 2^53+1 and 1 and the edge (2^53+1,1) node 1 gets the
    parent 2^53, which is no node. *)
Lemma single_root_counterexample :
  (valid_tree [NONE; 5] [(NONE, 5)] /\
   exists rows,
     NMLReader.read_nml [NONE; 5] [(NONE, 5)] = Some (Ok rows) /\
     NMLReader.parent_of rows NONE = Some NONE /\
     NMLReader.parent_of rows 5 = Some NONE /\ NONE <> 5) /\
  (valid_tree [1] [] /\ NMLReader.read_nml [1] [] = Some (Raise IndexError)) /\
  (valid_tree [9007199254740993; 1] [(9007199254740993, 1)] /\
   exists rows,
     NMLReader.read_nml [9007199254740993; 1] [(9007199254740993, 1)]
     = Some (Ok rows) /\
     NMLReader.parent_of rows 1 = Some 9007199254740992 /\
     ~ In 9007199254740992 [9007199254740993; 1]).
Proof.
  split; [split | split; [split | split]].
  - exact valid_tree_sentinel_id.
  - eexists. split; [reflexivity|]. repeat split. discriminate.
  - exact valid_tree_single_node.
  - reflexivity.
  - apply valid_tree_one_edge. discriminate.
  - eexists. split; [vm_compute; reflexivity|]. split; [reflexivity|].
    simpl. intuition discriminate.
Qed.

(** C2, amended: for every input with at least one edge whose node set
    and edge set form a connected acyclic graph, and whose identifiers
    are none of them the sentinel -1 and all of them at most 2^53 in
    absolute value (as every identifier of 8, 16 or 32 bits is), exactly
    one node of the produced mapping has the parent NONE (-1), the node
    the traversal started from, and every other node has a parent drawn
    from the node set. *)
Theorem read_nml_single_root node_ids edges :
  valid_tree node_ids edges ->
  edges <> [] ->
  ~ In NONE node_ids ->
  (forall n, In n node_ids -> float64_exact n) ->
  exists rows root,
    NMLReader.read_nml node_ids edges = Some (Ok rows) /\
    NMLReader.bfs_start edges = Ok root /\
    In root node_ids /\
    (forall n, In n node_ids ->
               (NMLReader.parent_of rows n = Some NONE <-> n = root)) /\
    (forall n, In n node_ids -> n <> root ->
               exists p, NMLReader.parent_of rows n = Some p /\ In p node_ids).
Proof.
  intros (_ & Hover & Hconn & _) Hne Hnone Hex.
  apply (edges_over_exact _ _ Hover) in Hex.
  destruct edges as [|e es]; [congruence|]. clear Hne.
  assert (Hroot : In (fst e) node_ids).
  { destruct e as [a b]. destruct (Hover a b); [now left | assumption]. }
  assert (Hids : node_ids <> []) by (intros ->; destruct Hroot).
  destruct (read_nml_spec_exact node_ids e es Hids Hex)
    as (tree & _ & Hr & Hsound & ND & Hs & _ & Hreach).
  assert (Hpar : forall n, In n node_ids -> n <> fst e ->
            In (NMLReader.source_of tree n) node_ids).
  { intros n Hn Hne.
    destruct (Hreach n (Hconn _ _ Hroot Hn)) as [?|Ht]; [contradiction|].
    apply source_of_target, Hsound in Ht.
    destruct Ht as [H|H]; apply Hover in H; tauto. }
  exists (NMLReader.sort_values
            (combine node_ids (map (NMLReader.source_of tree) node_ids))), (fst e).
  split; [assumption|]. split; [apply bfs_start_cons|]. split; [assumption|].
  split.
  - intros n Hn. rewrite parent_of_table, (proj2 (mem_In n node_ids) Hn).
    split.
    + intros E. destruct (Z.eq_dec n (fst e)) as [|Hne]; [assumption|].
      exfalso. apply Hnone.
      replace NONE with (NMLReader.source_of tree n) by congruence.
      now apply Hpar.
    + intros ->. now rewrite source_of_no_target.
  - intros n Hn Hne. exists (NMLReader.source_of tree n).
    rewrite parent_of_table, (proj2 (mem_In n node_ids) Hn). split; auto.
Qed.

Lemma read_nml_single_root_witness :
  exists rows root,
    NMLReader.read_nml [1; 2; 3] [(1, 2); (2, 3)] = Some (Ok rows) /\
    NMLReader.bfs_start [(1, 2); (2, 3)] = Ok root /\
    In root [1; 2; 3] /\
    (forall n, In n [1; 2; 3] ->
               (NMLReader.parent_of rows n = Some NONE <-> n = root)) /\
    (forall n, In n [1; 2; 3] -> n <> root ->
               exists p, NMLReader.parent_of rows n = Some p /\ In p [1; 2; 3]).
Proof.
  apply (read_nml_single_root [1; 2; 3] [(1, 2); (2, 3)]).
  - exact valid_tree_chain.
  - discriminate.
  - unfold NONE. simpl. intuition lia.
  - intros n [<-|[<-|[<-|[]]]]; unfold float64_exact; simpl; lia.
Defined.

(** C3, a defect of the code: the connected acyclic input with the
    nodes 2^53+1 = 9007199254740993 and 1 and the edge (2^53+1, 1) is
    one that [precision=64] admits, and its edge is no parent link of
    the produced mapping.  The root 2^53+1 has no predecessor, so
    [reindex] writes a [NaN] and the column of predecessors becomes
    float64; node 1 gets the parent 2^53 = 9007199254740992, which is
    no node at all, and the root gets -1. *)
Theorem read_nml_edge_rounded :
  valid_tree [9007199254740993; 1] [(9007199254740993, 1)] /\
  NMLReader.read_nml [9007199254740993; 1] [(9007199254740993, 1)]
  = Some (Ok [(1, 9007199254740992); (9007199254740993, NONE)]) /\
  NMLReader.parent_of [(1, 9007199254740992); (9007199254740993, NONE)] 1
  <> Some 9007199254740993 /\
  NMLReader.parent_of [(1, 9007199254740992); (9007199254740993, NONE)]
    9007199254740993
  <> Some 1.
Proof.
  split; [apply valid_tree_one_edge; discriminate|].
  split; [vm_compute; reflexivity|].
  split; vm_compute; discriminate.
Qed.

(** C4, as stated, fails: with the node table 1, 2, 3 and the edge rows
    (2,3), (1,2) the traversal starts at node 2, not at node 1, the first
    node of the node table, and node 1 gets the parent 2. *)
Lemma root_counterexample :
  List.hd_error [1; 2; 3] = Some 1 /\
  NMLReader.bfs_start [(2, 3); (1, 2)] = Ok 2 /\
  exists rows,
    NMLReader.read_nml [1; 2; 3] [(2, 3); (1, 2)] = Some (Ok rows) /\
    NMLReader.parent_of rows 1 = Some 2 /\
    NMLReader.parent_of rows 1 <> Some NONE /\
    NMLReader.parent_of rows 2 = Some NONE.
Proof.
  split; [reflexivity|]. split; [reflexivity|].
  eexists. split; [reflexivity|]. repeat split. discriminate.
Qed.

(** C4, amended: for every input with at least one edge row and one node,
    the traversal starts at the first identifier of the first row of the
    edge table, and that node, when the node table lists it, is the root
    (parent = NONE) of the produced tree. *)
Theorem read_nml_root node_ids e es :
  node_ids <> [] ->
  NMLReader.bfs_start (e :: es) = Ok (fst e) /\
  exists rows,
    NMLReader.read_nml node_ids (e :: es) = Some (Ok rows) /\
    (In (fst e) node_ids -> NMLReader.parent_of rows (fst e) = Some NONE).
Proof.
  intros Hids. split; [apply bfs_start_cons|].
  destruct (read_nml_spec node_ids e es Hids) as (tree & _ & Hr & _ & _ & Hs & _).
  eexists. split; [exact Hr|]. intros Hin.
  rewrite parent_of_table, (proj2 (mem_In _ _) Hin).
  now rewrite parent_id_no_target.
Qed.

Lemma read_nml_root_witness :
  NMLReader.bfs_start [(2, 3); (1, 2)] = Ok 2 /\
  exists rows,
    NMLReader.read_nml [1; 2; 3] [(2, 3); (1, 2)] = Some (Ok rows) /\
    (In 2 [1; 2; 3] -> NMLReader.parent_of rows 2 = Some NONE).
Proof.
  apply (read_nml_root [1; 2; 3] (2, 3) [(1, 2)]). discriminate.
Defined.

(** C6, as stated, fails: with the nodes 1, 2, 3 and an edge (3,4) to the
    unknown node 4, [read_nml] raises nothing and returns a mapping. *)
Lemma dangling_edge_counterexample :
  ~ In 4 [1; 2; 3] /\
  NMLReader.read_nml [1; 2; 3] [(1, 2); (2, 3); (3, 4)]
  = Some (Ok [(1, NONE); (2, 1); (3, 2)]).
Proof.
  split; [simpl; intuition lia | reflexivity].
Qed.

(** C6, amended: for every input with a node table that is not empty
    whose edge list references a node identifier [x] not present in the
    node set, [read_nml] does not fail: [x] is one more vertex of the
    graph built from the edge table, joined to the other end of every
    edge that names it, and the result is a parent mapping defined on
    exactly the nodes of the node table, so that it has no row for
    [x]. *)
Theorem read_nml_dangling_edge node_ids edges x :
  node_ids <> [] ->
  ~ In x node_ids ->
  (exists u v, In (u, v) edges /\ (x = u \/ x = v)) ->
  let G := nx.add_edges_from nx.empty edges in
  In x (nx.nodes G) /\
  (forall y, adjacent edges x y -> In y (nbrs G x) /\ In x (nbrs G y)) /\
  exists rows,
    NMLReader.read_nml node_ids edges = Some (Ok rows) /\
    (forall n, In n node_ids <-> exists p, NMLReader.parent_of rows n = Some p) /\
    NMLReader.parent_of rows x = None.
Proof.
  intros Hids Hx (u & v & Huv & Hend) G.
  split; [|split].
  - apply nodes_endpoints. exists (u, v). split; [assumption|].
    simpl. destruct Hend; [now left | now right].
  - intros y Hxy. split; apply nbrs_adjacent; [assumption | now apply adjacent_sym].
  - destruct edges as [|e es]; [destruct Huv|].
    destruct (read_nml_spec node_ids e es Hids) as (tree & _ & Hr & _).
    eexists. split; [exact Hr|]. split.
    + intros n. rewrite parent_of_table.
      destruct (nx.mem n node_ids) eqn:M.
      * apply mem_In in M. split; [eauto | auto].
      * apply mem_not_In in M. split; [contradiction | intros [p Hp]; discriminate].
    + rewrite parent_of_table. apply mem_not_In in Hx. now rewrite Hx.
Qed.

Lemma read_nml_dangling_edge_witness :
  let G := nx.add_edges_from nx.empty [(1, 2); (2, 3); (3, 4)] in
  In 4 (nx.nodes G) /\
  (forall y, adjacent [(1, 2); (2, 3); (3, 4)] 4 y ->
             In y (nbrs G 4) /\ In 4 (nbrs G y)) /\
  exists rows,
    NMLReader.read_nml [1; 2; 3] [(1, 2); (2, 3); (3, 4)] = Some (Ok rows) /\
    (forall n, In n [1; 2; 3] <-> exists p, NMLReader.parent_of rows n = Some p) /\
    NMLReader.parent_of rows 4 = None.
Proof.
  apply (read_nml_dangling_edge [1; 2; 3] [(1, 2); (2, 3); (3, 4)] 4).
  - discriminate.
  - simpl. intuition lia.
  - exists 3, 4. simpl. split; [tauto | now right].
Defined.

(** * The claims about [NMXReader.read_buffer] *)

Section ReaderFacts.

Context {neuron : Type}.
Variable ZipFile : buffer -> result (list ZipInfo).
Variable read_nml : list Byte.byte -> attrs_arg -> world -> result neuron * world.

(** The loop stops at the first qualifying member. *)
Lemma members_first filelist : forall f w,
  (exists m, In m filelist /\ NMXReader.qualifies m = true) ->
  exists m,
    In m filelist /\ NMXReader.qualifies m = true /\
    NMXReader.members neuron read_nml filelist f PyNone w = (Raise TypeError, w) /\
    NMXReader.members neuron read_nml filelist f PyDict w =
      (let '(r, w') := read_nml (data m) PyDict (entered m w) in
       (x ← r; Ok (Some x), w')).
Proof.
  induction filelist as [|m0 rest IH]; intros f w (m & Hin & Hq).
  - destruct Hin.
  - simpl. destruct (NMXReader.qualifies m0) eqn:Q0.
    + exists m0. split; [now left|]. split; [assumption|]. split; reflexivity.
    + destruct Hin as [->|Hin]; [congruence|].
      destruct (IH (NMXReader.Member m0) w) as (m1 & H1 & Q1 & HN & HD); [eauto|].
      exists m1. split; [now right|]. split; [assumption|]. split; assumption.
Qed.

(** Without a qualifying member the loop runs through; what [f] names
    afterwards is the last member, or still what it named before. *)
Lemma members_none filelist : forall f attrs w,
  (forall m, In m filelist -> NMXReader.qualifies m = false) ->
  NMXReader.members neuron read_nml filelist f attrs w =
    match (match last_member filelist with
           | Some m => NMXReader.Member m
           | None => f
           end) with
    | NMXReader.Buffer => (Raise AttributeError, w)
    | NMXReader.Member m => (Ok None, emit (Warning (NMXReader.skipped_message m)) w)
    end.
Proof.
  induction filelist as [|m0 rest IH]; intros f attrs w Hq.
  - reflexivity.
  - simpl NMXReader.members. rewrite (Hq m0) by now left.
    rewrite IH by (intros m Hm; apply Hq; now right).
    destruct rest as [|m1 rest]; [reflexivity|].
    unfold last_member.
    change (map Some (m0 :: m1 :: rest)) with ([Some m0] ++ map Some (m1 :: rest)).
    rewrite (last_suffix_gen [Some m0] (map Some (m1 :: rest)) None None)
      by discriminate.
    destruct (List.last (map Some (m1 :: rest)) None) eqn:E; [reflexivity|].
    exfalso. clear -E. revert m1 E.
    induction rest as [|m2 rest IHr]; intros m1 E; [discriminate|].
    apply (IHr m2 E).
Qed.

(** On a buffer of bytes the check of line 166 passes and the container
    is opened. *)
Lemma read_buffer_bytes f attrs w :
  isinstance_bytes (read f 0) = true ->
  NMXReader.read_buffer neuron ZipFile read_nml f attrs w =
  match ZipFile f with
  | Raise e => (Raise e, emit ZipOpened w)
  | Ok filelist =>
      NMXReader.members neuron read_nml filelist NMXReader.Buffer attrs
        (emit ZipOpened w)
  end.
Proof.
  intros H. unfold NMXReader.read_buffer. now rewrite H.
Qed.

End ReaderFacts.

(** C7, at the archive without any member: the loop of line 170 never
    rebinds [f], so that line 175 asks the buffer for a [filename] and
    [read_buffer] raises [AttributeError]; no warning is logged and
    nothing is returned. *)
Theorem read_buffer_empty_archive (neuron : Type)
    (ZipFile : buffer -> result (list ZipInfo))
    (read_nml : list Byte.byte -> attrs_arg -> world -> result neuron * world)
    (f : buffer) (attrs : attrs_arg) (w : world) :
  isinstance_bytes (read f 0) = true ->
  ZipFile f = Ok [] ->
  NMXReader.read_buffer neuron ZipFile read_nml f attrs w
  = (Raise AttributeError, emit ZipOpened w).
Proof.
  intros Hb HZ. rewrite read_buffer_bytes, HZ by assumption. reflexivity.
Qed.

Lemma read_buffer_empty_archive_witness :
  NMXReader.read_buffer unit (fun _ => Ok []) (fun _ _ w => (Ok tt, w))
    (BytesIO []) PyDict (World ∅ [])
  = (Raise AttributeError, emit ZipOpened (World ∅ [])).
Proof.
  apply (read_buffer_empty_archive unit (fun _ => Ok []) (fun _ _ w => (Ok tt, w))
           (BytesIO []) PyDict (World ∅ [])); reflexivity.
Defined.

(** What C7 describes holds for every archive that has a member: when no
    member qualifies, [read_buffer] raises nothing, logs the warning that
    names the first path segment of the last member and returns [None]. *)
Lemma read_buffer_skips (neuron : Type)
    (ZipFile : buffer -> result (list ZipInfo))
    (read_nml : list Byte.byte -> attrs_arg -> world -> result neuron * world)
    (f : buffer) (attrs : attrs_arg) (w : world) filelist m :
  isinstance_bytes (read f 0) = true ->
  ZipFile f = Ok filelist ->
  last_member filelist = Some m ->
  (forall m', In m' filelist -> NMXReader.qualifies m' = false) ->
  NMXReader.read_buffer neuron ZipFile read_nml f attrs w
  = (Ok None,
     emit (Warning (NMXReader.skipped_message m)) (emit ZipOpened w)).
Proof.
  intros Hb HZ Hl Hq. rewrite read_buffer_bytes, HZ by assumption.
  rewrite members_none by assumption. now rewrite Hl.
Qed.

(** C8: a buffer whose [read] yields text makes [read_buffer] raise the
    [ValueError] of line 167 (the error the specification calls
    InputTypeError), whatever the other arguments; the world comes back
    as it was: nothing was added to the trace, the zip container has not
    been opened. *)
Theorem read_buffer_text (neuron : Type)
    (ZipFile : buffer -> result (list ZipInfo))
    (read_nml : list Byte.byte -> attrs_arg -> world -> result neuron * world)
    (f : buffer) (attrs : attrs_arg) (w : world) :
  (exists s, read f 0 = PyStr s) ->
  NMXReader.read_buffer neuron ZipFile read_nml f attrs w = (Raise ValueError, w).
Proof.
  intros [s Hs]. unfold NMXReader.read_buffer. now rewrite Hs.
Qed.

Lemma read_buffer_text_witness :
  NMXReader.read_buffer unit (fun _ => Ok []) (fun _ _ w => (Ok tt, w))
    (StringIO "<things></things>") PyDict (World ∅ [])
  = (Raise ValueError, World ∅ []).
Proof.
  apply (read_buffer_text unit (fun _ => Ok []) (fun _ _ w => (Ok tt, w))
           (StringIO "<things></things>") PyDict (World ∅ [])).
  exists ""%string. reflexivity.
Defined.

(** C10: when the archive holds a qualifying member, [read_buffer] called
    with a dictionary stores the keys file and id in that very dictionary
    (the member's name and its first path segment), leaves the other keys
    alone, and enters [read_nml] for the first qualifying member with the
    dictionary so changed; called with [attrs = None] it raises
    [TypeError] and returns no neuron. *)
Theorem read_buffer_writes_attrs (neuron : Type)
    (ZipFile : buffer -> result (list ZipInfo))
    (read_nml : list Byte.byte -> attrs_arg -> world -> result neuron * world)
    (f : buffer) (w : world) filelist :
  isinstance_bytes (read f 0) = true ->
  ZipFile f = Ok filelist ->
  (exists m, In m filelist /\ NMXReader.qualifies m = true) ->
  exists m,
    In m filelist /\ NMXReader.qualifies m = true /\
    let w' := entered m (emit ZipOpened w) in
    NMXReader.read_buffer neuron ZipFile read_nml f PyDict w
    = (let '(r, w'') := read_nml (data m) PyDict w' in (x ← r; Ok (Some x), w'')) /\
    attrs_obj w' !! "file"%string = Some (filename m) /\
    attrs_obj w' !! "id"%string = Some (split_first (filename m)) /\
    (forall k : string, k <> "file"%string -> k <> "id"%string ->
                        attrs_obj w' !! k = attrs_obj w !! k) /\
    NMXReader.read_buffer neuron ZipFile read_nml f PyNone w
    = (Raise TypeError, emit ZipOpened w).
Proof.
  intros Hb HZ Hex.
  destruct (members_first read_nml filelist NMXReader.Buffer (emit ZipOpened w) Hex)
    as (m & Hin & Hq & HN & HD).
  exists m. split; [assumption|]. split; [assumption|].
  rewrite !read_buffer_bytes, HZ by assumption. cbv zeta.
  split; [exact HD|].
  unfold entered, emit, setitem. simpl.
  split; [|split; [|split]].
  - rewrite lookup_insert_ne by discriminate. apply lookup_insert_eq.
  - apply lookup_insert_eq.
  - intros k Hf Hi. now rewrite !lookup_insert_ne by congruence.
  - exact HN.
Qed.

Lemma read_buffer_writes_attrs_witness :
  let ZipFile := fun _ : buffer =>
    Ok [ {| filename := "n1/readme.txt"; data := [] |};
         {| filename := "n1/skeleton.nml"; data := [] |} ] in
  let read_nml := fun (_ : list Byte.byte) (_ : attrs_arg) (w : world) => (Ok tt, w) in
  let w := World ∅ [] in
  exists m,
    In m [ {| filename := "n1/readme.txt"; data := [] |};
           {| filename := "n1/skeleton.nml"; data := [] |} ] /\
    NMXReader.qualifies m = true /\
    let w' := entered m (emit ZipOpened w) in
    NMXReader.read_buffer unit ZipFile read_nml (BytesIO []) PyDict w
    = (let '(r, w'') := read_nml (data m) PyDict w' in (x ← r; Ok (Some x), w'')) /\
    attrs_obj w' !! "file"%string = Some (filename m) /\
    attrs_obj w' !! "id"%string = Some (split_first (filename m)) /\
    (forall k : string, k <> "file"%string -> k <> "id"%string ->
                        attrs_obj w' !! k = attrs_obj w !! k) /\
    NMXReader.read_buffer unit ZipFile read_nml (BytesIO []) PyNone w
    = (Raise TypeError, emit ZipOpened w).
Proof.
  intros ZipFile read_nml w.
  apply (read_buffer_writes_attrs unit ZipFile read_nml (BytesIO []) w
           [ {| filename := "n1/readme.txt"; data := [] |};
             {| filename := "n1/skeleton.nml"; data := [] |} ]).
  - reflexivity.
  - reflexivity.
  - exists {| filename := "n1/skeleton.nml"; data := [] |}.
    split; [right; now left | reflexivity].
Defined.

Example skipped_message_example :
  NMXReader.skipped_message {| filename := "n1/readme.txt"; data := [] |}
  = ("Skipped " ++ dquote ++ "n1.nmx" ++ dquote ++ ": failed to import skeleton.")%string.
Proof. reflexivity. Qed.

(** * The claims about [write_nml] *)

Section WriterFacts.

Context {real : Type}.
Variable str : real -> string.

Lemma write_rows swc : forall nodes edges,
  fold_left (write_row real str) swc (nodes, edges) =
  (nodes ++ map (node_element real str) swc,
   edges ++ map (edge_element real) (List.filter has_parent swc)).
Proof.
  induction swc as [|row swc IH]; intros nodes edges; simpl.
  - now rewrite !app_nil_r.
  - unfold has_parent at 1. destruct (negb (Parent row =? -1)); rewrite IH; simpl;
      now rewrite <- !app_assoc.
Qed.

End WriterFacts.

(** C9: the [edges] element of the document holds, in the order of the
    table, one [edge] element for every row whose [Parent] is not -1,
    with source = the row's parent identifier and target = its own
    identifier, and nothing else, so that a root row contributes none.
    For the table of a root 1 and its child 2 that is the single element
    with source 1 and target 2; no element has node 1 as its target. *)
Theorem write_nml_edges (real : Type) (str : real -> string) (neuron : Type)
    (name : neuron -> string)
    (make_swc_table : neuron -> list (swc_row real) * gmap Z Z)
    (x : neuron) (return_node_map : bool) :
  (let swc := fst (make_swc_table x) in
   let doc := fst (write_nml real str neuron name make_swc_table x return_node_map) in
   edges_of doc =
     map (fun row => Elem "edge" [("source", str_int (Parent row));
                                  ("target", str_int (PointNo row))]%string [])
         (List.filter has_parent swc) /\
   List.length (edges_of doc) = List.length (List.filter has_parent swc) /\
   forall e, In e (edges_of doc) <->
             exists row, In row swc /\ Parent row <> -1 /\ e = edge_element real row) /\
  (forall (r1 x1 y1 z1 r2 x2 y2 z2 : real) (node_map : gmap Z Z),
     let table := fun _ : neuron =>
       ([ {| PointNo := 1; Radius := r1; X := x1; Y := y1; Zc := z1; Parent := -1 |};
          {| PointNo := 2; Radius := r2; X := x2; Y := y2; Zc := z2; Parent := 1 |} ],
        node_map) in
     edges_of (fst (write_nml real str neuron name table x return_node_map))
     = [Elem "edge" [("source", "1"); ("target", "2")]%string []]).
Proof.
  assert (Hdoc : forall mk,
    edges_of (fst (write_nml real str neuron name mk x return_node_map))
    = map (edge_element real) (List.filter has_parent (fst (mk x)))).
  { intros mk. unfold write_nml. destruct (mk x) as [swc node_map].
    rewrite write_rows. unfold edges_of. simpl. now rewrite app_nil_r. }
  split.
  - cbv zeta. rewrite Hdoc. split; [reflexivity|]. split.
    + now rewrite List.length_map.
    + intros e. rewrite in_map_iff. split.
      * intros (row & <- & Hin). apply filter_In in Hin as [Hin Hp].
        exists row. split; [assumption|]. split; [|reflexivity].
        unfold has_parent in Hp. apply negb_true_iff, Z.eqb_neq in Hp. exact Hp.
      * intros (row & Hin & Hp & ->). exists row. split; [reflexivity|].
        apply filter_In. split; [assumption|].
        unfold has_parent. now apply negb_true_iff, Z.eqb_neq.
  - intros. rewrite Hdoc. reflexivity.
Qed.

(** * Further properties of [read_nml] *)

(** What a successful call has computed. *)
Lemma read_nml_Ok node_ids edges rows :
  NMLReader.read_nml node_ids edges = Some (Ok rows) ->
  exists e es tree,
    edges = e :: es /\ node_ids <> [] /\
    rows = NMLReader.sort_values
             (combine node_ids
                (map (NMLReader.parent_id tree node_ids) node_ids)) /\
    (forall p c, In (p, c) tree -> adjacent edges p c) /\
    List.NoDup (map snd tree) /\
    ~ In (fst e) (map snd tree) /\
    (forall x, In x (map snd tree) -> descends tree [fst e] x) /\
    (forall x, clos_refl_trans Z (adjacent edges) (fst e) x ->
               x = fst e \/ In x (map snd tree)).
Proof.
  intros H. destruct edges as [|e es]; [discriminate|].
  destruct node_ids as [|n ids].
  - destruct (read_nml_spec [0] e es) as (tree & Hb & _); [discriminate|].
    unfold NMLReader.read_nml in H. rewrite first_node_cons in H.
    unfold nx.bfs_tree_edges in H. rewrite Hb in H. discriminate.
  - destruct (read_nml_spec (n :: ids) e es) as (tree & _ & Hr & Hrest); [discriminate|].
    rewrite Hr in H. injection H as Hrows.
    exists e, es, tree. split; [reflexivity|]. split; [discriminate|].
    split; [symmetry; exact Hrows | exact Hrest].
Qed.

(** The same for identifiers that a float64 holds as they are: the
    parent column holds the predecessors of the tree. *)
Lemma read_nml_Ok_exact node_ids edges rows :
  exact_edges edges ->
  NMLReader.read_nml node_ids edges = Some (Ok rows) ->
  exists e es tree,
    edges = e :: es /\ node_ids <> [] /\
    rows = NMLReader.sort_values
             (combine node_ids (map (NMLReader.source_of tree) node_ids)) /\
    (forall p c, In (p, c) tree -> adjacent edges p c) /\
    List.NoDup (map snd tree) /\
    ~ In (fst e) (map snd tree) /\
    (forall x, In x (map snd tree) -> descends tree [fst e] x) /\
    (forall x, clos_refl_trans Z (adjacent edges) (fst e) x ->
               x = fst e \/ In x (map snd tree)).
Proof.
  intros Hex H.
  apply read_nml_Ok in H as (e & es & tree & He & Hne & Hrows & Hsound & Hrest).
  exists e, es, tree. split; [assumption|]. split; [assumption|].
  split; [|split; assumption].
  rewrite Hrows. do 2 f_equal. apply map_ext_In_Z. intros n _.
  apply parent_id_exact. intros p c Hpc.
  apply Hsound in Hpc. now apply (adjacent_exact _ _ _ Hex) in Hpc.
Qed.

(** A parent link of the returned table is an edge of the tree. *)
Lemma child_link_tree tree ids c p :
  child_link (NMLReader.sort_values
                (combine ids (map (NMLReader.source_of tree) ids))) c p ->
  In c ids /\ In (p, c) tree.
Proof.
  intros [Hp Hn]. rewrite parent_of_table in Hp.
  destruct (nx.mem c ids) eqn:M; [|discriminate].
  apply mem_In in M. split; [assumption|].
  inversion Hp; subst p.
  destruct (in_dec Z.eq_dec c (map snd tree)) as [Hin|Hout].
  - now apply source_of_target.
  - now rewrite source_of_no_target in Hn.
Qed.

Section TreeDepth.

Variable tree : list (Z * Z).
Variable s : Z.
Hypothesis ND : List.NoDup (map snd tree).
Hypothesis Hroot : ~ In s (map snd tree).

Lemma one_parent p p' c : In (p, c) tree -> In (p', c) tree -> p = p'.
Proof using ND.
  intros H H'. rewrite <- (source_of_edge tree p c ND H).
  now apply source_of_edge.
Qed.

Lemma target_in p c : In (p, c) tree -> In c (map snd tree).
Proof. intros H. apply in_map_iff. now exists (p, c). Qed.

Lemma depth_exists x : descends tree [s] x -> exists d, depth_in tree s x d.
Proof.
  induction 1 as [x [<-|[]]|p c Hpc _ [d IH]].
  - exists O. constructor.
  - exists (S d). econstructor; eauto.
Qed.

Lemma depth_unique x d : depth_in tree s x d -> forall d', depth_in tree s x d' -> d = d'.
Proof using ND Hroot.
  induction 1 as [|p c d Hpc _ IH]; intros d' H'.
  - inversion H' as [|p c d0 Hpc _]; subst; [reflexivity|].
    exfalso. apply Hroot. eapply target_in; eauto.
  - inversion H' as [|p' c' d0 Hpc' Hd']; subst.
    + exfalso. apply Hroot. eapply target_in; eauto.
    + f_equal. apply IH. now rewrite (one_parent p p' c).
Qed.

Lemma depth_parent p c d :
  In (p, c) tree -> depth_in tree s c d ->
  exists d', d = S d' /\ depth_in tree s p d'.
Proof using ND Hroot.
  intros Hpc Hd. inversion Hd as [|p' c' d0 Hpc' Hd']; subst.
  - exfalso. apply Hroot. eapply target_in; eauto.
  - exists d0. split; [reflexivity|]. now rewrite (one_parent p p' c).
Qed.

Lemma ancestor_depth c a :
  clos_trans Z (fun c p => In (p, c) tree) c a ->
  forall d, depth_in tree s c d ->
  exists d', (d' < d)%nat /\ depth_in tree s a d'.
Proof using ND Hroot.
  induction 1 as [c p Hpc|c b a _ IH1 _ IH2]; intros d Hd.
  - destruct (depth_parent p c d Hpc Hd) as (d' & -> & Hp). exists d'. split; [lia | assumption].
  - destruct (IH1 d Hd) as (d1 & L1 & H1). destruct (IH2 d1 H1) as (d2 & L2 & H2).
    exists d2. split; [lia | assumption].
Qed.

(** No vertex of the tree lies below itself. *)
Lemma tree_loop_free n :
  (forall x, In x (map snd tree) -> descends tree [s] x) ->
  ~ clos_trans Z (fun c p => In (p, c) tree) n n.
Proof using ND Hroot.
  intros Hdesc H.
  assert (Ht : In n (map snd tree)).
  { apply clos_trans_t1n in H. inversion H as [p Hp|p z Hp _]; subst;
      eapply target_in; eauto. }
  destruct (depth_exists n (Hdesc n Ht)) as [d Hd].
  destruct (ancestor_depth n n H d Hd) as (d' & L & Hd').
  pose proof (depth_unique n d Hd d' Hd'). lia.
Qed.

End TreeDepth.

Lemma clos_trans_mono (R R' : Z -> Z -> Prop) x y :
  (forall a b, R a b -> R' a b) -> clos_trans Z R x y -> clos_trans Z R' x y.
Proof.
  intros HR. induction 1 as [x y H|x y z _ IH1 _ IH2].
  - apply t_step. auto.
  - eapply t_trans; eauto.
Qed.

(** X1: whatever the input, also one with cycles or in several pieces,
    as long as the identifiers of its edge table are at most 2^53 in
    absolute value (as every identifier of 8, 16 or 32 bits is), the
    parent links of the table [read_nml] returns are loop-free: no node
    is its own ancestor. *)
Theorem read_nml_loop_free node_ids edges rows :
  exact_edges edges ->
  NMLReader.read_nml node_ids edges = Some (Ok rows) ->
  forall n, ~ clos_trans Z (child_link rows) n n.
Proof.
  intros Hex H n Hc.
  apply (read_nml_Ok_exact _ _ _ Hex) in H as (e & es & tree & -> & _ & -> & _ & ND & Hroot & Hdesc & _).
  apply (tree_loop_free tree (fst e) ND Hroot n Hdesc).
  apply clos_trans_mono with (R := child_link
    (NMLReader.sort_values
       (combine node_ids (map (NMLReader.source_of tree) node_ids)))); [|assumption].
  intros a b Hab. now apply child_link_tree in Hab.
Qed.

Lemma read_nml_loop_free_witness :
  NMLReader.read_nml [3; 1; 2; 4] [(1, 2); (2, 3); (3, 1); (1, 1)]
  = Some (Ok [(1, NONE); (2, 1); (3, 1); (4, NONE)]) /\
  ~ clos_trans Z (child_link [(1, NONE); (2, 1); (3, 1); (4, NONE)]) 2 2.
Proof.
  split; [reflexivity|].
  apply (read_nml_loop_free [3; 1; 2; 4] [(1, 2); (2, 3); (3, 1); (1, 1)]).
  - apply exact_edges_check. reflexivity.
  - reflexivity.
Defined.

(** X2: with identifiers of the edge table that are at most 2^53 in
    absolute value (as every identifier of 8, 16 or 32 bits is),
    [read_nml] invents no link: every parent link of the returned table
    joins a node of the node table to a node the edge table lists next
    to it. *)
Theorem read_nml_links_are_edges node_ids edges rows :
  exact_edges edges ->
  NMLReader.read_nml node_ids edges = Some (Ok rows) ->
  forall c p, child_link rows c p -> In c node_ids /\ adjacent edges p c.
Proof.
  intros Hex H c p Hl.
  apply (read_nml_Ok_exact _ _ _ Hex) in H as (e & es & tree & -> & _ & -> & Hsound & _).
  apply child_link_tree in Hl as [Hc Ht]. split; [assumption|]. now apply Hsound.
Qed.

Lemma read_nml_links_are_edges_witness :
  NMLReader.read_nml [3; 1; 2; 4] [(1, 2); (2, 3); (3, 1); (1, 1)]
  = Some (Ok [(1, NONE); (2, 1); (3, 1); (4, NONE)]) /\
  child_link [(1, NONE); (2, 1); (3, 1); (4, NONE)] 3 1 /\
  In 3 [3; 1; 2; 4] /\ adjacent [(1, 2); (2, 3); (3, 1); (1, 1)] 1 3.
Proof.
  split; [reflexivity|].
  assert (Hl : child_link [(1, NONE); (2, 1); (3, 1); (4, NONE)] 3 1).
  { split; [reflexivity | discriminate]. }
  split; [exact Hl|].
  apply (read_nml_links_are_edges [3; 1; 2; 4] [(1, 2); (2, 3); (3, 1); (1, 1)]
           [(1, NONE); (2, 1); (3, 1); (4, NONE)]);
    [apply exact_edges_check; reflexivity | reflexivity | exact Hl].
Defined.

Lemma clos_rt_mono (R R' : Z -> Z -> Prop) x y :
  (forall a b, R a b -> R' a b) ->
  clos_refl_trans Z R x y -> clos_refl_trans Z R' x y.
Proof.
  intros HR. induction 1 as [x y H|x|x y z _ IH1 _ IH2].
  - apply rt_step. auto.
  - apply rt_refl.
  - eapply rt_trans; eauto.
Qed.

(** Every vertex of the tree can be walked to from the start. *)
Lemma target_reachable edges tree s x :
  (forall p c, In (p, c) tree -> adjacent edges p c) ->
  descends tree [s] x ->
  clos_refl_trans Z (adjacent edges) s x.
Proof.
  intros Hsound Hd. apply walk_sym.
  apply clos_rt_mono with (R := adjacent tree); [|now apply descends_walk].
  intros a b [H|H]; [apply Hsound, H | apply adjacent_sym, Hsound, H].
Qed.

(** X3: with identifiers of the edge table that are at most 2^53 in
    absolute value (as every identifier of 8, 16 or 32 bits is),
    [read_nml] keeps the piece of the graph that holds the first
    identifier of the first edge row and drops the rest: a node of the
    node table that no walk joins to that identifier gets the parent
    NONE, and every other node but the start gets a parent that is next
    to it in the edge table and is itself joined to the start. *)
Theorem read_nml_first_component node_ids e es rows :
  exact_edges (e :: es) ->
  NMLReader.read_nml node_ids (e :: es) = Some (Ok rows) ->
  forall n, In n node_ids ->
    (~ clos_refl_trans Z (adjacent (e :: es)) (fst e) n ->
     NMLReader.parent_of rows n = Some NONE) /\
    (clos_refl_trans Z (adjacent (e :: es)) (fst e) n -> n <> fst e ->
     exists p, NMLReader.parent_of rows n = Some p /\
               adjacent (e :: es) p n /\
               clos_refl_trans Z (adjacent (e :: es)) (fst e) p).
Proof.
  intros Hex H n Hn.
  apply (read_nml_Ok_exact _ _ _ Hex) in H
    as (e' & es' & tree & E & _ & -> & Hsound & ND & Hroot & Hdesc & Hreach).
  inversion E; subst e' es'. clear E.
  rewrite parent_of_table, (proj2 (mem_In n node_ids) Hn). split.
  - intros Hun. rewrite source_of_no_target; [reflexivity|].
    intros Ht. apply Hun. eapply target_reachable; eauto.
  - intros Hr Hne. destruct (Hreach n Hr) as [?|Ht]; [contradiction|].
    exists (NMLReader.source_of tree n). split; [reflexivity|].
    apply source_of_target, Hsound in Ht. split; [assumption|].
    eapply rt_trans; [exact Hr|]. apply rt_step. now apply adjacent_sym.
Qed.

Lemma read_nml_first_component_witness :
  NMLReader.read_nml [1; 2; 3; 4; 5] [(1, 2); (2, 3); (4, 5)]
  = Some (Ok [(1, NONE); (2, 1); (3, 2); (4, NONE); (5, NONE)]) /\
  (~ clos_refl_trans Z (adjacent [(1, 2); (2, 3); (4, 5)]) 1 5 ->
   NMLReader.parent_of [(1, NONE); (2, 1); (3, 2); (4, NONE); (5, NONE)] 5
   = Some NONE) /\
  (clos_refl_trans Z (adjacent [(1, 2); (2, 3); (4, 5)]) 1 5 -> 5 <> 1 ->
   exists p,
     NMLReader.parent_of [(1, NONE); (2, 1); (3, 2); (4, NONE); (5, NONE)] 5
     = Some p /\
     adjacent [(1, 2); (2, 3); (4, 5)] p 5 /\
     clos_refl_trans Z (adjacent [(1, 2); (2, 3); (4, 5)]) 1 p).
Proof.
  split; [reflexivity|].
  apply (read_nml_first_component [1; 2; 3; 4; 5] (1, 2) [(2, 3); (4, 5)]
           [(1, NONE); (2, 1); (3, 2); (4, NONE); (5, NONE)]).
  - apply exact_edges_check. reflexivity.
  - reflexivity.
  - simpl. tauto.
Defined.

(** X19: for every input whose node set and edge set form a connected
    acyclic graph, and whose identifiers are at most 2^53 in absolute
    value (as every identifier of 8, 16 or 32 bits is), every edge (u,v)
    of the edge table is a parent link of the table [read_nml] returns:
    parent(v) = u or parent(u) = v. *)
Theorem read_nml_edge_faithful node_ids edges :
  valid_tree node_ids edges ->
  (forall n, In n node_ids -> float64_exact n) ->
  forall u v, In (u, v) edges ->
  exists rows,
    NMLReader.read_nml node_ids edges = Some (Ok rows) /\
    (NMLReader.parent_of rows v = Some u \/ NMLReader.parent_of rows u = Some v).
Proof.
  intros (_ & Hover & Hconn & Hacyc) Hex u v Huv.
  apply (edges_over_exact _ _ Hover) in Hex.
  destruct (Hover u v Huv) as [Hu Hv].
  destruct edges as [|e es]; [destruct Huv|].
  assert (Hroot : In (fst e) node_ids).
  { destruct e as [a b]. destruct (Hover a b); [now left | assumption]. }
  assert (Hids : node_ids <> []) by (intros ->; destruct Hroot).
  destruct (read_nml_spec_exact node_ids e es Hids Hex)
    as (tree & _ & Hr & Hsound & ND & _ & Hdesc & Hreach).
  eexists. split; [exact Hr|].
  rewrite !parent_of_table.
  rewrite (proj2 (mem_In u node_ids) Hu), (proj2 (mem_In v node_ids) Hv).
  assert (Ht : adjacent tree u v).
  { apply (tree_edge_of_acyclic (e :: es) tree (fst e)); auto.
    now left. }
  destruct Ht as [Ht|Ht].
  - left. f_equal. now apply source_of_edge.
  - right. f_equal. now apply source_of_edge.
Qed.

Lemma read_nml_edge_faithful_witness :
  exists rows,
    NMLReader.read_nml [1; 2; 3] [(1, 2); (2, 3)] = Some (Ok rows) /\
    (NMLReader.parent_of rows 3 = Some 2 \/ NMLReader.parent_of rows 2 = Some 3).
Proof.
  apply (read_nml_edge_faithful [1; 2; 3] [(1, 2); (2, 3)] valid_tree_chain).
  - intros n [<-|[<-|[<-|[]]]]; unfold float64_exact; simpl; lia.
  - simpl. tauto.
Defined.

Lemma insert_row_sorted r rows :
  sorted_by_id rows -> sorted_by_id (NMLReader.insert_row r rows).
Proof.
  unfold sorted_by_id. induction rows as [|r' rows IH]; simpl; intros H.
  - repeat constructor.
  - destruct (Z.leb_spec (fst r) (fst r')) as [Hle|Hgt].
    + constructor; [assumption|]. constructor. assumption.
    + inversion H as [|? ? Hs Hh]; subst. constructor; [now apply IH|].
      destruct rows as [|r'' rows]; simpl.
      * constructor. lia.
      * destruct (Z.leb_spec (fst r) (fst r'')); constructor; [lia|].
        now inversion Hh.
Qed.

Lemma insert_row_perm r rows : Permutation (NMLReader.insert_row r rows) (r :: rows).
Proof.
  induction rows as [|r' rows IH]; simpl; [reflexivity|].
  destruct (fst r <=? fst r'); [reflexivity|].
  rewrite IH. apply perm_swap.
Qed.

Lemma sort_values_sorted rows : sorted_by_id (NMLReader.sort_values rows).
Proof.
  unfold NMLReader.sort_values. induction rows as [|r rows IH]; simpl.
  - constructor.
  - now apply insert_row_sorted.
Qed.

Lemma sort_values_perm rows : Permutation (NMLReader.sort_values rows) rows.
Proof.
  unfold NMLReader.sort_values. induction rows as [|r rows IH]; simpl; [reflexivity|].
  rewrite insert_row_perm. now constructor.
Qed.

(** X5: the table [read_nml] returns is in ascending order of node
    identifier and has one row for every row of the node table, repeated
    identifiers included. *)
Theorem read_nml_sorted node_ids edges rows :
  NMLReader.read_nml node_ids edges = Some (Ok rows) ->
  sorted_by_id rows /\ Permutation (map fst rows) node_ids.
Proof.
  intros H.
  apply read_nml_Ok in H as (e & es & tree & _ & _ & -> & _).
  split; [apply sort_values_sorted|].
  rewrite sort_values_perm, combine_map_self, map_map. simpl.
  now rewrite map_id.
Qed.

Lemma read_nml_sorted_witness :
  sorted_by_id [(1, 2); (2, NONE); (2, NONE); (3, 2)] /\
  Permutation (map fst [(1, 2); (2, NONE); (2, NONE); (3, 2)]) [3; 2; 1; 2].
Proof.
  apply (read_nml_sorted [3; 2; 1; 2] [(2, 3); (1, 2)]). reflexivity.
Defined.

(** On an edge table of two columns [read_nml] raises in two cases
    only: [IndexError] when the table is empty, and [AttributeError]
    when there are edges but the node table is empty. *)
Lemma read_nml_errors node_ids edges e :
  NMLReader.read_nml node_ids edges = Some (Raise e) <->
  (edges = [] /\ e = IndexError) \/
  (edges <> [] /\ node_ids = [] /\ e = AttributeError).
Proof.
  destruct edges as [|e0 es].
  - simpl. split.
    + intros H. inversion H. now left.
    + intros [[_ ->]|[Hne _]]; [reflexivity | congruence].
  - destruct node_ids as [|n ids].
    + destruct (read_nml_spec [0] e0 es) as (tree & Hb & _); [discriminate|].
      unfold NMLReader.read_nml. rewrite first_node_cons.
      unfold nx.bfs_tree_edges. rewrite Hb. split.
      * intros H. inversion H. right. repeat split. discriminate.
      * intros [[? _]|(_ & _ & ->)]; [discriminate | reflexivity].
    + destruct (read_nml_spec (n :: ids) e0 es) as (tree & _ & Hr & _); [discriminate|].
      rewrite Hr. split; [discriminate|].
      intros [[? _]|(_ & ? & _)]; discriminate.
Qed.

(** Rows of two entries are taken as the edges they spell. *)
Lemma unpack_edges_Ok values edges :
  NMLReader.unpack_edges values = Ok edges <->
  values = map (fun e => [fst e; snd e]) edges.
Proof.
  revert edges. induction values as [|row values IH]; intros edges; simpl.
  - split.
    + intros H. inversion H. reflexivity.
    + destruct edges; [reflexivity | discriminate].
  - destruct row as [|u [|v [|w [|? ?]]]]; simpl;
      try (split; [discriminate | destruct edges; discriminate]).
    destruct (NMLReader.unpack_edges values) as [es|err] eqn:E; simpl.
    + split.
      * intros H. inversion H. simpl. f_equal. now apply IH.
      * destruct edges as [|[a b] edges]; [discriminate|]. simpl.
        intros H. inversion H; subst. f_equal. f_equal.
        assert (Hes : Ok es = Ok edges) by now apply IH.
        now inversion Hes.
    + split; [discriminate|].
      destruct edges as [|[a b] edges]; [discriminate|]. simpl.
      intros H. inversion H; subst.
      assert (Hes : Raise err = Ok edges) by now apply IH.
      discriminate Hes.
Qed.

(** [add_edges_from] stops at the first row that is no pair, with
    [TypeError] when it has three entries and with [NetworkXError]
    otherwise. *)
Lemma unpack_edges_Raise values e :
  NMLReader.unpack_edges values = Raise e <->
  exists before row after,
    values = (before ++ row :: after)%list /\
    Forall (fun r => List.length r = 2%nat) before /\
    ((List.length row = 3%nat /\ e = TypeError) \/
     (List.length row <> 2%nat /\ List.length row <> 3%nat /\ e = NetworkXError)).
Proof.
  induction values as [|row values IH]; simpl.
  - split; [discriminate|]. intros (before & row & after & H & _).
    destruct before; discriminate.
  - destruct (Nat.eq_dec (List.length row) 2%nat) as [L|L].
    + destruct row as [|u [|v [|w ?]]]; simpl in L; try lia. simpl.
      destruct (NMLReader.unpack_edges values) as [es|err]; simpl.
      * split; [discriminate|].
        intros (before & row & after & H & Hb & Hrow).
        destruct before as [|r before]; simpl in H; inversion H; subst.
        -- simpl in Hrow. lia.
        -- assert (Hr : Raise e = @Raise (list (Z * Z)) e) by reflexivity.
           assert (Hv : @Ok (list (Z * Z)) es = Raise e).
           { apply IH. exists before, row, after. inversion Hb; subst.
             split; [reflexivity|]. split; assumption. }
           discriminate Hv.
      * split.
        -- intros H. inversion H; subst.
           destruct (proj1 IH eq_refl) as (before & row & after & -> & Hb & Hrow).
           exists ([u; v] :: before), row, after.
           split; [reflexivity|]. split; [|assumption].
           constructor; [reflexivity | assumption].
        -- intros (before & row & after & H & Hb & Hrow).
           destruct before as [|r before]; simpl in H; inversion H; subst.
           ++ simpl in Hrow. lia.
           ++ f_equal. assert (Hv : @Raise (list (Z * Z)) err = Raise e).
              { apply IH. exists before, row, after. inversion Hb; subst.
                split; [reflexivity|]. split; assumption. }
              now inversion Hv.
    + assert (Hun : NMLReader.unpack_edge row
                    = Raise (if Nat.eq_dec (List.length row) 3%nat
                             then TypeError else NetworkXError)).
      { destruct row as [|u [|v [|w [|? ?]]]]; simpl in *; try reflexivity. lia. }
      rewrite Hun. simpl. split.
      * intros H. inversion H; subst. exists [], row, values.
        split; [reflexivity|]. split; [constructor|].
        destruct (Nat.eq_dec (List.length row) 3%nat); [left | right]; auto.
      * intros (before & row' & after & H & Hb & Hrow).
        destruct before as [|r before]; simpl in H; inversion H; subst.
        -- f_equal. destruct (Nat.eq_dec (List.length row') 3%nat);
             destruct Hrow as [[? ->]|(? & ? & ->)]; try reflexivity; lia.
        -- inversion Hb; subst. contradiction.
Qed.

(** X6: on the rows of the edge table as [edges.values] gives them,
    lines 118-124 raise in four cases only: [TypeError] or
    [NetworkXError] when a row is no pair, the first such row having
    three entries or another number of them; [IndexError] when the table
    has no row; and [AttributeError] when the rows are pairs, there is
    one at least, and the node table is empty.  They never stop with the
    [ValueError] of a repeated index label or with the [NetworkXError]
    of a vertex that is not in the graph. *)
Theorem read_nml_values_errors node_ids values e :
  NMLReader.read_nml_values node_ids values = Some (Raise e) <->
  (exists before row after,
     values = (before ++ row :: after)%list /\
     Forall (fun r => List.length r = 2%nat) before /\
     ((List.length row = 3%nat /\ e = TypeError) \/
      (List.length row <> 2%nat /\ List.length row <> 3%nat /\
       e = NetworkXError))) \/
  (values = [] /\ e = IndexError) \/
  (values <> [] /\ Forall (fun r => List.length r = 2%nat) values /\
   node_ids = [] /\ e = AttributeError).
Proof.
  unfold NMLReader.read_nml_values.
  destruct (NMLReader.unpack_edges values) as [edges|err] eqn:E.
  - apply unpack_edges_Ok in E. subst values.
    assert (Hpairs : Forall (fun r => List.length r = 2%nat)
                       (map (fun e : Z * Z => [fst e; snd e]) edges)).
    { apply List.Forall_forall. intros r Hr.
      apply in_map_iff in Hr as (x & <- & _). reflexivity. }
    rewrite read_nml_errors. split.
    + intros [[-> ->]|(Hne & -> & ->)]; [right; left; now split|].
      right. right. split; [|split; [assumption | now split]].
      destruct edges; [congruence | discriminate].
    + intros [(before & row & after & Hv & _ & Hrow)|[[Hv ->]|(Hne & _ & -> & ->)]].
      * exfalso. rewrite List.Forall_forall in Hpairs.
        assert (Hl : List.length row = 2%nat).
        { apply Hpairs. rewrite Hv. apply in_or_app. right. now left. }
        lia.
      * left. split; [|reflexivity]. destruct edges; [reflexivity | discriminate].
      * right. split; [|now split]. intros ->. now apply Hne.
  - split.
    + intros H. inversion H; subst. left. now apply unpack_edges_Raise.
    + intros [H|[[-> _]|(_ & Hpairs & _)]].
      * apply unpack_edges_Raise in H. rewrite E in H. now inversion H.
      * discriminate E.
      * exfalso. apply unpack_edges_Raise in E
          as (before & row & after & -> & _ & Hrow).
        rewrite List.Forall_forall in Hpairs.
        assert (Hl : List.length row = 2%nat).
        { apply Hpairs. apply in_or_app. right. now left. }
        lia.
Qed.

(** ** Orientation of the breadth-first tree *)

(** When every edge of a tree [T] below [s] is, in one direction or the
    other, a link of a parent structure [P] in which [s] has no parent and
    no vertex has two, then [T] and [P] agree on the direction too. *)
Lemma tree_orientation (T P : list (Z * Z)) s :
  List.NoDup (map snd T) -> ~ In s (map snd T) ->
  (forall x, In x (map snd T) -> descends T [s] x) ->
  List.NoDup (map snd P) -> ~ In s (map snd P) ->
  (forall p c, In (p, c) T -> In (p, c) P \/ In (c, p) P) ->
  forall p c, In (p, c) T -> In (p, c) P.
Proof.
  intros NDT HsT Hdesc NDP HsP Hlink.
  assert (Hmain : forall p, descends T [s] p -> forall c, In (p, c) T -> In (p, c) P).
  { induction 1 as [x [<-|[]]|g p Hgp _ IH]; intros c Hc.
    - destruct (Hlink _ _ Hc) as [H|H]; [assumption|].
      exfalso. apply HsP. eapply target_in; eauto.
    - destruct (Hlink _ _ Hc) as [H|H]; [assumption|].
      assert (c = g) by (eapply (one_parent P NDP); eauto). subst c.
      exfalso. apply (tree_loop_free T s NDT HsT p Hdesc).
      eapply t_trans; apply t_step; eauto. }
  intros p c Hpc. apply Hmain; [|assumption].
  assert (Hc : descends T [s] c) by (apply Hdesc; eapply target_in; eauto).
  inversion Hc as [x [E|[]]|p' c' Hpc' Hp']; subst.
  - exfalso. apply HsT. eapply target_in; eauto.
  - now rewrite (one_parent T NDT p p' c).
Qed.

(** The tree of an edge table of (parent, child) rows that starts at a
    node without a parent is made of rows of that table; the parents
    come through the parent column as they are when a float64 holds
    them. *)
Lemma read_nml_oriented node_ids e es :
  node_ids <> [] ->
  List.NoDup (map snd (e :: es)) ->
  ~ In (fst e) (map snd (e :: es)) ->
  (forall c, In c (map snd (e :: es)) ->
             clos_refl_trans Z (adjacent (e :: es)) (fst e) c) ->
  (forall p c, In (p, c) (e :: es) -> float64_exact p) ->
  exists rows,
    NMLReader.read_nml node_ids (e :: es) = Some (Ok rows) /\
    forall n, In n node_ids ->
              NMLReader.parent_of rows n = Some (NMLReader.source_of (e :: es) n).
Proof.
  intros Hids NDE HsE Hconn Hex.
  destruct (read_nml_spec node_ids e es Hids)
    as (tree & _ & Hr & Hsound & ND & Hroot & Hdesc & Hreach).
  eexists. split; [exact Hr|]. intros n Hn.
  rewrite parent_of_table, (proj2 (mem_In n node_ids) Hn). f_equal.
  assert (Hsub : forall p c, In (p, c) tree -> In (p, c) (e :: es)).
  { apply (tree_orientation tree (e :: es) (fst e)); auto. }
  rewrite parent_id_exact by (intros p c Hpc; apply Hsub in Hpc; eapply Hex; eauto).
  destruct (in_dec Z.eq_dec n (map snd (e :: es))) as [Hin|Hout].
  - destruct (Hreach n (Hconn n Hin)) as [->|Ht]; [contradiction|].
    apply source_of_target in Ht.
    symmetry. apply source_of_edge; [assumption|]. now apply Hsub.
  - rewrite (source_of_no_target (e :: es)) by assumption.
    apply source_of_no_target. intros Ht. apply Hout.
    apply source_of_target, Hsub in Ht. eapply target_in; eauto.
Qed.

(** X7: an edge table that already is a list of (parent, child) rows, no
    child listed twice, whose first row starts at a node that is nobody's
    child and from which every child can be reached, and whose parents
    are at most 2^53 in absolute value (as every identifier of 8, 16 or
    32 bits is), is read back as it stands: every node of the node table
    gets the parent its row names, and NONE when it is no child. *)
Theorem read_nml_keeps_orientation node_ids e es :
  node_ids <> [] ->
  List.NoDup (map snd (e :: es)) ->
  ~ In (fst e) (map snd (e :: es)) ->
  (forall c, In c (map snd (e :: es)) ->
             clos_refl_trans Z (adjacent (e :: es)) (fst e) c) ->
  (forall p c, In (p, c) (e :: es) -> float64_exact p) ->
  exists rows,
    NMLReader.read_nml node_ids (e :: es) = Some (Ok rows) /\
    forall n, In n node_ids ->
              NMLReader.parent_of rows n = Some (NMLReader.source_of (e :: es) n).
Proof.
  intros Hids ND Hs Hconn Hex.
  destruct (read_nml_oriented node_ids e es Hids ND Hs Hconn Hex) as (rows & Hr & Hp).
  exists rows. split; assumption.
Qed.

Lemma read_nml_keeps_orientation_witness :
  exists rows,
    NMLReader.read_nml [4; 3; 2; 1] [(1, 2); (3, 4); (2, 3)] = Some (Ok rows) /\
    forall n, In n [4; 3; 2; 1] ->
      NMLReader.parent_of rows n
      = Some (NMLReader.source_of [(1, 2); (3, 4); (2, 3)] n).
Proof.
  apply (read_nml_keeps_orientation [4; 3; 2; 1] (1, 2) [(3, 4); (2, 3)]).
  - discriminate.
  - repeat constructor; simpl; intuition lia.
  - simpl. intuition lia.
  - assert (H12 : adjacent [(1, 2); (3, 4); (2, 3)] 1 2) by (left; simpl; tauto).
    assert (H23 : adjacent [(1, 2); (3, 4); (2, 3)] 2 3) by (left; simpl; tauto).
    assert (H34 : adjacent [(1, 2); (3, 4); (2, 3)] 3 4) by (left; simpl; tauto).
    assert (W2 := rt_step _ _ _ _ H12).
    assert (W3 := rt_trans _ _ _ _ _ W2 (rt_step _ _ _ _ H23)).
    assert (W4 := rt_trans _ _ _ _ _ W3 (rt_step _ _ _ _ H34)).
    intros c [<-|[<-|[<-|[]]]]; assumption.
  - intros p c [E|[E|[E|[]]]]; inversion E; subst;
      unfold float64_exact; simpl; lia.
Defined.

(** Being a valid tree depends on the edge table through adjacency
    only. *)
Lemma valid_tree_same_adjacency node_ids edges1 edges2 :
  (forall x y, adjacent edges1 x y <-> adjacent edges2 x y) ->
  valid_tree node_ids edges1 -> valid_tree node_ids edges2.
Proof.
  intros Hadj (ND & Hover & Hconn & Hloop & Hcyc).
  split; [assumption|]. split; [|split; [|split]].
  - intros u v Huv.
    assert (H : adjacent edges1 u v) by (apply Hadj; now left).
    destruct H as [H|H]; apply Hover in H; tauto.
  - intros a b Ha Hb. apply clos_rt_mono with (R := adjacent edges1).
    + intros x y. apply Hadj.
    + now apply Hconn.
  - intros u Hu. apply (Hloop u). now apply Hadj.
  - intros l (Hlen & Hn & Hp & Hc). apply (Hcyc l).
    split; [assumption|]. split; [assumption|]. split.
    + apply is_path_mono with (R := adjacent edges2); [|assumption].
      intros x y. apply Hadj.
    + now apply Hadj.
Qed.

(** X8: for a valid tree the result depends on the edge table only
    through the set of edges it describes and through the node the
    traversal starts at: two edge tables with the same adjacency and the
    same start, whatever the order and the direction of their rows, give
    the same table. *)
Theorem read_nml_tree_order_independent node_ids edges1 edges2 :
  valid_tree node_ids edges1 ->
  (forall x y, adjacent edges1 x y <-> adjacent edges2 x y) ->
  NMLReader.bfs_start edges1 = NMLReader.bfs_start edges2 ->
  NMLReader.read_nml node_ids edges1 = NMLReader.read_nml node_ids edges2.
Proof.
  intros V1 Hadj Hstart.
  pose proof (valid_tree_same_adjacency _ _ _ Hadj V1) as V2.
  destruct edges1 as [|e1 es1], edges2 as [|e2 es2]; try reflexivity;
    try (rewrite bfs_start_cons in Hstart; discriminate Hstart).
  rewrite !bfs_start_cons in Hstart. inversion Hstart as [Hs].
  destruct V1 as (_ & Hover1 & Hconn1 & Hacyc1).
  destruct V2 as (_ & Hover2 & Hconn2 & Hacyc2).
  assert (Hroot : In (fst e1) node_ids).
  { destruct e1 as [a b]. destruct (Hover1 a b); [now left | assumption]. }
  assert (Hids : node_ids <> []) by (intros ->; destruct Hroot).
  destruct (read_nml_spec node_ids e1 es1 Hids)
    as (T1 & _ & Hr1 & Hsound1 & ND1 & Hroot1 & Hdesc1 & Hreach1).
  destruct (read_nml_spec node_ids e2 es2 Hids)
    as (T2 & _ & Hr2 & Hsound2 & ND2 & Hroot2 & Hdesc2 & Hreach2).
  rewrite Hr1, Hr2. do 4 f_equal. rewrite <- Hs in *.
  assert (Hin2 : forall x, In x node_ids -> x = fst e1 \/ In x (map snd T2)).
  { intros x Hx. apply Hreach2. now apply Hconn2. }
  assert (Hsub : forall p c, In (p, c) T1 -> In (p, c) T2).
  { apply (tree_orientation T1 T2 (fst e1)); auto.
    intros p c Hpc. apply Hsound1 in Hpc.
    assert (Hpc2 : adjacent (e2 :: es2) p c) by now apply Hadj.
    assert (Hp : In p node_ids /\ In c node_ids).
    { destruct Hpc2 as [H|H]; apply Hover2 in H; tauto. }
    apply (tree_edge_of_acyclic (e2 :: es2) T2 (fst e1)); auto; apply Hin2; tauto. }
  assert (Hroot_only : forall n, In n node_ids -> ~ In n (map snd T1) -> n = fst e1).
  { intros n Hn Hout.
    destruct (Hreach1 n (Hconn1 _ _ Hroot Hn)) as [?|?]; [assumption | contradiction]. }
  apply map_ext_in. apply parent_id_ext.
  - intros n Hn. split.
    + intros Hin. apply source_of_target, Hsub in Hin. eapply target_in; eauto.
    + intros Hin. destruct (in_dec Z.eq_dec n (map snd T1)) as [?|Hout]; [assumption|].
      rewrite (Hroot_only n Hn Hout) in Hin. contradiction.
  - intros n Hn.
    destruct (in_dec Z.eq_dec n (map snd T1)) as [Hin|Hout].
    + apply source_of_target in Hin. symmetry.
      apply source_of_edge; [assumption|]. now apply Hsub.
    + rewrite (source_of_no_target T1) by assumption.
      symmetry. apply source_of_no_target.
      now rewrite (Hroot_only n Hn Hout).
Qed.

Lemma read_nml_tree_order_independent_witness :
  NMLReader.read_nml [1; 2; 3] [(1, 2); (2, 3)]
  = NMLReader.read_nml [1; 2; 3] [(1, 2); (3, 2); (2, 1)].
Proof.
  apply (read_nml_tree_order_independent [1; 2; 3] [(1, 2); (2, 3)]
           [(1, 2); (3, 2); (2, 1)] valid_tree_chain).
  - intros x y. unfold adjacent. simpl. intuition congruence.
  - reflexivity.
Defined.

(** * Further properties of [NMXReader.read_buffer] *)

Lemma endswith_unfold s suffix :
  endswith s suffix =
  if String.eqb s suffix then true
  else match s with
       | EmptyString => false
       | String _ s' => endswith s' suffix
       end.
Proof. now destruct s. Qed.

Lemma endswith_iff s suffix :
  endswith s suffix = true <-> exists p, s = (p ++ suffix)%string.
Proof.
  split.
  - induction s as [|c s IH]; rewrite endswith_unfold.
    + destruct (String.eqb_spec EmptyString suffix) as [<-|]; [|discriminate].
      intros _. now exists EmptyString.
    + destruct (String.eqb_spec (String c s) suffix) as [<-|].
      * intros _. now exists EmptyString.
      * intros H. destruct (IH H) as [p ->]. now exists (String c p).
  - intros [p ->]. induction p as [|c p IH]; rewrite endswith_unfold.
    + change (EmptyString ++ suffix)%string with suffix.
      now rewrite String.eqb_refl.
    + destruct (String.eqb (String c p ++ suffix) suffix); [reflexivity | exact IH].
Qed.

Lemma startswith_iff prefix : forall s,
  startswith s prefix = true <-> exists r, s = (prefix ++ r)%string.
Proof.
  induction prefix as [|a p IH]; intros s.
  - destruct s; simpl; split; eauto.
  - destruct s as [|b s]; simpl.
    + split; [discriminate | intros [r H]; discriminate].
    + rewrite andb_true_iff, IH. split.
      * intros [E [r ->]]. apply Ascii.eqb_eq in E. subst. eauto.
      * intros [r H]. inversion H; subst. split; [apply Ascii.eqb_refl | eauto].
Qed.

Lemma contains_unfold s sub :
  contains s sub =
  startswith s sub ||
  match s with
  | EmptyString => false
  | String _ s' => contains s' sub
  end.
Proof. now destruct s. Qed.

Lemma contains_iff sub : forall s,
  contains s sub = true <-> exists a b, s = (a ++ sub ++ b)%string.
Proof.
  induction s as [|c s IH]; rewrite contains_unfold.
  - rewrite orb_false_r, startswith_iff. split.
    + intros [r H]. exists EmptyString, r. exact H.
    + intros (a & b & H). destruct a; [eauto|discriminate].
  - rewrite orb_true_iff, startswith_iff, IH. split.
    + intros [[r H]|(a & b & ->)].
      * exists EmptyString, r. exact H.
      * exists (String c a), b. reflexivity.
    + intros (a & b & H). destruct a as [|c' a]; simpl in H.
      * left. eauto.
      * right. inversion H; subst. eauto.
Qed.

(** X9: the test of line 171 accepts exactly the member names that end
    in .nml and have skeleton somewhere in them. *)
Theorem qualifies_iff m :
  NMXReader.qualifies m = true <->
  (exists p, filename m = (p ++ ".nml")%string) /\
  (exists a b, filename m = (a ++ "skeleton" ++ b)%string).
Proof.
  unfold NMXReader.qualifies.
  now rewrite andb_true_iff, endswith_iff, contains_iff.
Qed.

(** X10: the identifier stored under id and named in the warning, the
    first item of [filename.split('/')], is the part of the name before
    its first slash: it holds no slash, and the name is either that part
    alone or that part, a slash and a rest. *)
Theorem split_first_spec s :
  (forall a b, split_first s <> (a ++ "/" ++ b)%string) /\
  (s = split_first s \/ exists rest, s = (split_first s ++ "/" ++ rest)%string).
Proof.
  induction s as [|c s [IH1 IH2]]; simpl.
  - split; [|now left]. intros [|? ?] b; discriminate.
  - destruct (Ascii.eqb_spec c "/") as [->|Hne].
    + split; [intros [|? ?] b; discriminate|]. right. now exists s.
    + split.
      * intros [|c' a] b H; simpl in H; inversion H; subst.
        -- congruence.
        -- now apply (IH1 a b).
      * destruct IH2 as [IH2|[rest IH2]].
        -- left. now f_equal.
        -- right. exists rest.
           change (String c s = String c (split_first s ++ "/" ++ rest)%string).
           f_equal. exact IH2.
Qed.

(** X11: of several qualifying members only the first in archive order
    is read; whatever follows it in the archive, qualifying or not, has
    no influence on the call. *)
Theorem read_buffer_first_member (neuron : Type)
    (ZipFile : buffer -> result (list ZipInfo))
    (read_nml : list Byte.byte -> attrs_arg -> world -> result neuron * world)
    (f : buffer) (w : world) before m after :
  isinstance_bytes (read f 0) = true ->
  ZipFile f = Ok (before ++ m :: after) ->
  (forall m', In m' before -> NMXReader.qualifies m' = false) ->
  NMXReader.qualifies m = true ->
  NMXReader.read_buffer neuron ZipFile read_nml f PyDict w
  = (let '(r, w') := read_nml (data m) PyDict (entered m (emit ZipOpened w)) in
     (x ← r; Ok (Some x), w')).
Proof.
  intros Hb HZ Hbefore Hm. rewrite read_buffer_bytes, HZ by assumption.
  clear HZ. generalize NMXReader.Buffer as v.
  induction before as [|m0 before IH]; intros v; simpl.
  - now rewrite Hm.
  - rewrite (Hbefore m0) by now left.
    apply IH. intros m' Hin. apply Hbefore. now right.
Qed.

Lemma read_buffer_first_member_witness :
  let members :=
    [ {| filename := "n1/readme.txt"; data := [] |};
      {| filename := "n1/skeleton.nml"; data := [] |};
      {| filename := "n1/skeleton_old.nml"; data := [] |} ] in
  let read_nml := fun (_ : list Byte.byte) (_ : attrs_arg) (w : world) => (Ok tt, w) in
  let m := {| filename := "n1/skeleton.nml"; data := [] |} in
  NMXReader.read_buffer unit (fun _ => Ok members) read_nml (BytesIO []) PyDict
    (World ∅ [])
  = (let '(r, w') := read_nml (data m) PyDict (entered m (emit ZipOpened (World ∅ []))) in
     (x ← r; Ok (Some x), w')).
Proof.
  intros members read_nml m.
  apply (read_buffer_first_member unit (fun _ => Ok members) read_nml (BytesIO [])
           (World ∅ []) [ {| filename := "n1/readme.txt"; data := [] |} ] m
           [ {| filename := "n1/skeleton_old.nml"; data := [] |} ]).
  - reflexivity.
  - reflexivity.
  - intros m' [<-|[]]. reflexivity.
  - reflexivity.
Defined.

Lemma last_member_last before m : last_member (before ++ [m]) = Some m.
Proof.
  unfold last_member. rewrite map_app. simpl. apply List.last_last.
Qed.

(** X12: an archive with at least one member, none of them qualifying,
    is skipped: [read_buffer] raises nothing, returns [None], leaves the
    caller's dictionary alone and, after opening the container, logs one
    warning, which names the first path segment of the last member of the
    archive. *)
Theorem read_buffer_skip_warning (neuron : Type)
    (ZipFile : buffer -> result (list ZipInfo))
    (read_nml : list Byte.byte -> attrs_arg -> world -> result neuron * world)
    (f : buffer) (attrs : attrs_arg) (w : world) before m :
  isinstance_bytes (read f 0) = true ->
  ZipFile f = Ok (before ++ [m]) ->
  (forall m', In m' (before ++ [m]) -> NMXReader.qualifies m' = false) ->
  fst (NMXReader.read_buffer neuron ZipFile read_nml f attrs w) = Ok None /\
  attrs_obj (snd (NMXReader.read_buffer neuron ZipFile read_nml f attrs w))
  = attrs_obj w /\
  trace (snd (NMXReader.read_buffer neuron ZipFile read_nml f attrs w))
  = trace w ++ [ZipOpened;
                Warning ("Skipped " ++ dquote ++ split_first (filename m) ++ ".nmx"
                         ++ dquote ++ ": failed to import skeleton.")%string].
Proof.
  intros Hb HZ Hq. rewrite read_buffer_bytes, HZ by assumption.
  rewrite members_none by assumption. rewrite last_member_last. simpl.
  repeat split. now rewrite <- app_assoc.
Qed.

Lemma read_buffer_skip_warning_witness :
  let members := [ {| filename := "n1/readme.txt"; data := [] |};
                   {| filename := "n2/skeleton.txt"; data := [] |} ] in
  let call := NMXReader.read_buffer unit (fun _ => Ok members)
                (fun _ _ w => (Ok tt, w)) (BytesIO []) PyDict (World ∅ []) in
  fst call = Ok None /\
  attrs_obj (snd call) = attrs_obj (World ∅ []) /\
  trace (snd call)
  = trace (World ∅ []) ++
    [ZipOpened;
     Warning ("Skipped " ++ dquote
              ++ split_first (filename {| filename := "n2/skeleton.txt"; data := [] |})
              ++ ".nmx" ++ dquote ++ ": failed to import skeleton.")%string].
Proof.
  intros members call.
  apply (read_buffer_skip_warning unit (fun _ => Ok members)
           (fun _ _ w => (Ok tt, w)) (BytesIO []) PyDict (World ∅ [])
           [ {| filename := "n1/readme.txt"; data := [] |} ]
           {| filename := "n2/skeleton.txt"; data := [] |}).
  - reflexivity.
  - reflexivity.
  - intros m' [<-|[<-|[]]]; reflexivity.
Defined.

(** X13: the caller's dictionary is written to only when a qualifying
    member is found: on a text buffer, on bytes that are no archive and on
    an archive without a qualifying member it is left as it was. *)
Theorem read_buffer_attrs_untouched (neuron : Type)
    (ZipFile : buffer -> result (list ZipInfo))
    (read_nml : list Byte.byte -> attrs_arg -> world -> result neuron * world)
    (f : buffer) (attrs : attrs_arg) (w : world) :
  (forall filelist m, ZipFile f = Ok filelist -> In m filelist ->
                      NMXReader.qualifies m = false) ->
  attrs_obj (snd (NMXReader.read_buffer neuron ZipFile read_nml f attrs w))
  = attrs_obj w.
Proof.
  intros Hq. unfold NMXReader.read_buffer.
  destruct (isinstance_bytes (read f 0)); simpl; [|reflexivity].
  destruct (ZipFile f) as [filelist|e] eqn:HZ; [|reflexivity].
  rewrite members_none by (intros m Hm; eapply Hq; eauto).
  destruct (last_member filelist); reflexivity.
Qed.

Lemma read_buffer_attrs_untouched_witness :
  attrs_obj (snd (NMXReader.read_buffer unit
    (fun _ => Ok [ {| filename := "n1/readme.txt"; data := [] |} ])
    (fun _ _ w => (Ok tt, w)) (BytesIO []) PyDict
    (World {[ "name"%string := "n1"%string ]} [])))
  = attrs_obj (World {[ "name"%string := "n1"%string ]} []).
Proof.
  apply (read_buffer_attrs_untouched unit
    (fun _ => Ok [ {| filename := "n1/readme.txt"; data := [] |} ])
    (fun _ _ w => (Ok tt, w)) (BytesIO []) PyDict
    (World {[ "name"%string := "n1"%string ]} [])).
  intros filelist m HZ Hin. inversion HZ; subst filelist.
  destruct Hin as [<-|[]]. reflexivity.
Defined.

(** * Further properties of [write_nml] *)

Lemma filter_split_length {A} (f : A -> bool) (l : list A) :
  List.length l =
  (List.length (List.filter f l)
   + List.length (List.filter (fun x => negb (f x)) l))%nat.
Proof.
  induction l as [|x l IH]; simpl; [reflexivity|].
  destruct (f x); simpl; lia.
Qed.

(** X14: the [nodes] element of the document holds one [node] element
    for every row of the table, in the order of the table, each with the
    attributes id, radius, x, y, z in this order; and the document has as
    many [edge] elements as it has nodes that are not roots. *)
Theorem write_nml_nodes (real : Type) (str : real -> string) (neuron : Type)
    (name : neuron -> string)
    (make_swc_table : neuron -> list (swc_row real) * gmap Z Z)
    (x : neuron) (return_node_map : bool) :
  let swc := fst (make_swc_table x) in
  let doc := fst (write_nml real str neuron name make_swc_table x return_node_map) in
  nodes_of doc =
    map (fun row => Elem "node" [("id", str_int (PointNo row));
                                 ("radius", str (Radius real row));
                                 ("x", str (X real row));
                                 ("y", str (Y real row));
                                 ("z", str (Zc real row))]%string []) swc /\
  List.length (nodes_of doc) =
    (List.length (edges_of doc)
     + List.length (List.filter (fun row => (Parent row =? -1)%Z) swc))%nat.
Proof.
  cbv zeta. unfold write_nml. destruct (make_swc_table x) as [swc node_map].
  rewrite write_rows. unfold nodes_of, edges_of. simpl. rewrite !app_nil_r.
  split; [reflexivity|].
  rewrite !List.length_map, (filter_split_length has_parent swc). f_equal.
  f_equal. apply filter_ext. intros row. unfold has_parent. apply negb_involutive.
Qed.



(** * [read_nml] on the parsed document *)

Section DocumentFacts.

Context {frames : Type}.
Variable from_records :
  list (list (string * string)) -> list (list (string * string)) -> result frames.
Variable edge_values : frames -> result (list (Z * Z)).
Variable node_id_values : frames -> list Z.

Lemma each_thing_skip elements : forall tables,
  (forall el, In el elements -> tag_of el <> "thing"%string) ->
  each_thing frames from_records elements tables = Ok tables.
Proof.
  induction elements as [|el rest IH]; intros tables H; simpl; [reflexivity|].
  destruct (String.eqb_spec (tag_of el) "thing") as [E|_].
  - exfalso. apply (H el); [now left | assumption].
  - apply IH. intros el' Hin. apply H. now right.
Qed.

Lemma each_thing_app l1 l2 : forall tables,
  each_thing frames from_records (l1 ++ l2) tables =
  match each_thing frames from_records l1 tables with
  | Ok tables' => each_thing frames from_records l2 tables'
  | Raise e => Raise e
  end.
Proof.
  induction l1 as [|el l1 IH]; intros tables; simpl; [reflexivity|].
  destruct (String.eqb (tag_of el) "thing"); [|apply IH].
  destruct (children_of el) as [|c0 [|c1 cs]]; try reflexivity.
  destruct (from_records _ _); [apply IH | reflexivity].
Qed.

(** A [thing] rebinds both tables: what was bound before is lost. *)
Lemma each_thing_rebinds thing rest tables :
  tag_of thing = "thing"%string ->
  each_thing frames from_records (thing :: rest) tables =
  each_thing frames from_records (thing :: rest) None.
Proof.
  intros E. simpl. rewrite E. simpl.
  destruct (children_of thing) as [|c0 [|c1 cs]]; reflexivity.
Qed.

End DocumentFacts.

(** X16: a document whose root has no [thing] child makes [read_nml]
    raise [UnboundLocalError]: line 119 reads the variable [edges], which
    only the body of the loop binds. *)
Theorem read_nml_document_no_thing (frames : Type)
    (from_records : list (list (string * string)) ->
                    list (list (string * string)) -> result frames)
    (edge_values : frames -> result (list (Z * Z)))
    (node_id_values : frames -> list Z) (root : Element) :
  (forall el, In el (children_of root) -> tag_of el <> "thing"%string) ->
  read_nml_document frames from_records edge_values node_id_values root
  = Some RaisedUnboundLocalError.
Proof.
  intros H. unfold read_nml_document. now rewrite each_thing_skip.
Qed.

Lemma read_nml_document_no_thing_witness :
  read_nml_document unit (fun _ _ => Ok tt) (fun _ => Ok []) (fun _ => [])
    (Elem "things" [] [Elem "parameters" [] []])
  = Some RaisedUnboundLocalError.
Proof.
  apply (read_nml_document_no_thing unit (fun _ _ => Ok tt) (fun _ => Ok []) (fun _ => [])).
  intros el [<-|[]]. discriminate.
Defined.

(** X17: of several [thing] elements only the last counts: when the
    [thing]s before it are read without an exception, the result is that
    of the document that holds the last [thing] alone. *)
Theorem read_nml_document_last_thing (frames : Type)
    (from_records : list (list (string * string)) ->
                    list (list (string * string)) -> result frames)
    (edge_values : frames -> result (list (Z * Z)))
    (node_id_values : frames -> list Z)
    (tag : string) (attrib : list (string * string))
    (before after : list Element) (thing : Element) (tables : option frames) :
  tag_of thing = "thing"%string ->
  (forall el, In el after -> tag_of el <> "thing"%string) ->
  each_thing frames from_records before None = Ok tables ->
  read_nml_document frames from_records edge_values node_id_values
    (Elem tag attrib (before ++ thing :: after))
  = read_nml_document frames from_records edge_values node_id_values
      (Elem tag attrib [thing]).
Proof.
  intros Ht Hafter Hbefore. unfold read_nml_document. simpl children_of.
  rewrite each_thing_app, Hbefore.
  rewrite (each_thing_rebinds from_records thing after tables Ht).
  change (thing :: after) with ([thing] ++ after). rewrite each_thing_app.
  destruct (each_thing frames from_records [thing] None) as [t|e]; [|reflexivity].
  now rewrite each_thing_skip.
Qed.

Lemma read_nml_document_last_thing_witness :
  let decode := fun (nodes edges : list (list (string * string))) =>
    Ok (List.length nodes, List.length edges) in
  let thing n :=
    Elem "thing" [] [Elem "nodes" [] (repeat (Elem "node" [] []) n); Elem "edges" [] []] in
  read_nml_document (nat * nat) decode (fun _ => Ok []) (fun _ => [])
    (Elem "things" [] ([thing 1%nat] ++ thing 2%nat :: [Elem "comments" [] []]))
  = read_nml_document (nat * nat) decode (fun _ => Ok []) (fun _ => [])
      (Elem "things" [] [thing 2%nat]).
Proof.
  intros decode thing.
  apply (read_nml_document_last_thing (nat * nat) decode (fun _ => Ok []) (fun _ => [])
           "things" [] [thing 1%nat] [Elem "comments" [] []] (thing 2%nat)
           (Some (1%nat, 0%nat))).
  - reflexivity.
  - intros el [<-|[]]. discriminate.
  - reflexivity.
Defined.

Lemma NoDup_map_filter {A} (f : A -> Z) (g : A -> bool) (l : list A) :
  List.NoDup (map f l) -> List.NoDup (map f (List.filter g l)).
Proof.
  induction l as [|a l IH]; simpl; intros H; [constructor|].
  inversion H as [|? ? Hn Hl]; subst. destruct (g a); simpl; [|auto].
  constructor; [|auto]. intros Hin. apply Hn.
  apply in_map_iff in Hin as (b & E & Hb). apply filter_In in Hb as [Hb _].
  apply in_map_iff. eauto.
Qed.

Lemma NoDup_map_injective {A} (f : A -> Z) (l : list A) a b :
  List.NoDup (map f l) -> In a l -> In b l -> f a = f b -> a = b.
Proof.
  induction l as [|x l IH]; simpl; intros H Ha Hb E; [destruct Ha|].
  inversion H as [|? ? Hn Hl]; subst.
  destruct Ha as [->|Ha], Hb as [->|Hb]; auto.
  - exfalso. apply Hn. rewrite E. now apply in_map.
  - exfalso. apply Hn. rewrite <- E. now apply in_map.
Qed.

(** X18: writing and reading back.  Take a table with distinct
    identifiers whose first row with a parent hangs below a node that has
    none, whose rows with a parent can all be reached from that node, and
    whose parents are at most 2^53 in absolute value (as every identifier
    of 8, 16 or 32 bits is).  When pandas turns the attributes of the
    written document back into the integers of the table, [read_nml] on
    the document [write_nml] builds returns, for every row, the parent
    the table gives it. *)
Theorem write_nml_read_back (real : Type) (str : real -> string) (neuron : Type)
    (name : neuron -> string)
    (make_swc_table : neuron -> list (swc_row real) * gmap Z Z)
    (x : neuron) (return_node_map : bool)
    (frames : Type)
    (from_records : list (list (string * string)) ->
                    list (list (string * string)) -> result frames)
    (edge_values : frames -> result (list (Z * Z)))
    (node_id_values : frames -> list Z) (t : frames) (e : Z * Z) (es : list (Z * Z)) :
  let swc := fst (make_swc_table x) in
  let links := map (fun row => (Parent row, PointNo row)) (List.filter has_parent swc) in
  from_records (map (fun row => attrib_of (node_element real str row)) swc)
               (map (fun row => attrib_of (edge_element real row))
                    (List.filter has_parent swc)) = Ok t ->
  edge_values t = Ok links ->
  node_id_values t = map PointNo swc ->
  List.NoDup (map PointNo swc) ->
  links = e :: es ->
  ~ In (fst e) (map snd links) ->
  (forall c, In c (map snd links) -> clos_refl_trans Z (adjacent links) (fst e) c) ->
  (forall row, In row swc -> float64_exact (Parent row)) ->
  exists rows,
    read_nml_document frames from_records edge_values node_id_values
      (fst (write_nml real str neuron name make_swc_table x return_node_map))
    = Some (Returned rows) /\
    forall row, In row swc ->
                NMLReader.parent_of rows (PointNo row) = Some (Parent row).
Proof.
  cbv zeta. unfold write_nml. destruct (make_swc_table x) as [swc node_map].
  simpl fst. intros Hfr Hev Hid ND Hlinks Hs Hconn Hex.
  rewrite write_rows. unfold read_nml_document. simpl.
  rewrite !map_map, Hfr, Hev, Hid.
  assert (Hne : map PointNo swc <> []).
  { destruct swc; [discriminate Hlinks | discriminate]. }
  assert (NDl : List.NoDup (map snd (e :: es))).
  { rewrite <- Hlinks, map_map. simpl. now apply NoDup_map_filter. }
  assert (Hexl : forall p c, In (p, c) (e :: es) -> float64_exact p).
  { intros p c Hpc. rewrite <- Hlinks in Hpc.
    apply in_map_iff in Hpc as (row & E & Hrow). inversion E; subst.
    apply filter_In in Hrow as [Hrow _]. now apply Hex. }
  rewrite Hlinks in Hs, Hconn.
  destruct (read_nml_oriented (map PointNo swc) e es Hne NDl Hs Hconn Hexl)
    as (rows & Hr & Hp).
  rewrite Hlinks, Hr. exists rows. split; [reflexivity|].
  intros row Hrow. rewrite Hp by now apply in_map. f_equal.
  rewrite <- Hlinks. clear Hp Hr rows.
  destruct (has_parent row) eqn:P.
  - apply source_of_edge; [now rewrite Hlinks|].
    apply in_map_iff. exists row. split; [reflexivity|].
    apply filter_In. now split.
  - assert (Hpar : Parent row = NONE).
    { unfold has_parent in P. apply negb_false_iff, Z.eqb_eq in P. exact P. }
    rewrite Hpar. apply source_of_no_target. rewrite map_map. simpl.
    intros Hin. apply in_map_iff in Hin as (row' & E & Hin').
    apply filter_In in Hin' as [Hin' P'].
    assert (row' = row) by (eapply (NoDup_map_injective PointNo swc); eauto).
    subst row'. congruence.
Qed.

Lemma write_nml_read_back_witness :
  let row := fun (n p : Z) =>
    {| PointNo := n; Radius := tt; X := tt; Y := tt; Zc := tt; Parent := p |} in
  let swc := [row 1 (-1); row 2 1; row 3 2; row 4 2] in
  let table := fun _ : unit => (swc, (∅ : gmap Z Z)) in
  let from_records := fun (nodes edges : list (list (string * string))) =>
    Ok (map PointNo swc,
        map (fun r => (Parent r, PointNo r)) (List.filter has_parent swc)) in
  exists rows,
    read_nml_document (list Z * list (Z * Z)) from_records
      (fun t => Ok (snd t)) fst
      (fst (write_nml unit (fun _ => "0"%string) unit (fun _ => "n"%string)
              table tt false))
    = Some (Returned rows) /\
    forall r, In r swc -> NMLReader.parent_of rows (PointNo r) = Some (Parent r).
Proof.
  intros row swc table from_records.
  apply (write_nml_read_back unit (fun _ => "0"%string) unit (fun _ => "n"%string)
           table tt false (list Z * list (Z * Z)) from_records
           (fun t => Ok (snd t)) fst
           (map PointNo swc,
            map (fun r => (Parent r, PointNo r)) (List.filter has_parent swc))
           (1, 2) [(2, 3); (2, 4)]).
  - reflexivity.
  - reflexivity.
  - reflexivity.
  - repeat constructor; simpl; intuition lia.
  - reflexivity.
  - simpl. intuition lia.
  - assert (H12 : adjacent [(1, 2); (2, 3); (2, 4)] 1 2) by (left; simpl; tauto).
    assert (H23 : adjacent [(1, 2); (2, 3); (2, 4)] 2 3) by (left; simpl; tauto).
    assert (H24 : adjacent [(1, 2); (2, 3); (2, 4)] 2 4) by (left; simpl; tauto).
    assert (W2 := rt_step _ _ _ _ H12).
    assert (W3 := rt_trans _ _ _ _ _ W2 (rt_step _ _ _ _ H23)).
    assert (W4 := rt_trans _ _ _ _ _ W2 (rt_step _ _ _ _ H24)).
    simpl. intros c [<-|[<-|[<-|[]]]]; assumption.
  - intros r [<-|[<-|[<-|[<-|[]]]]]; unfold float64_exact; simpl; lia.
Defined.

(** ** The breadth-first tree follows shortest walks *)

Section Levels.

Variable G : nx.Graph.

Lemma levelled_next queue seen D k :
  levelled G queue seen D k ->
  (forall qa qb, queue = qa ++ qb -> (forall q, In q qa -> D q k) ->
                 (forall q, In q qb -> D q (S k)) -> qa = []) ->
  levelled G queue seen D (S k).
Proof.
  intros (A & B & (qa & qb & Hq & Ha & Hb) & Dk & E) Hnil.
  assert (qa = []) by (eapply Hnil; eauto). subst qa. simpl in Hq. subst qb.
  split; [assumption|]. split; [assumption|]. split.
  - exists queue, []. rewrite app_nil_r. split; [reflexivity|].
    split; [assumption | intros q []].
  - split; [|assumption]. intros x d Hd. specialize (Dk x d Hd). lia.
Qed.

Lemma bfs_loop_levels fuel : forall queue seen out D k,
  nx.bfs_loop fuel G queue seen = Some (Ok out) ->
  levelled G queue seen D k ->
  exists D' : Z -> nat -> Prop,
    (forall x d, D x d -> D' x d) /\
    (forall x d d', D' x d -> D' x d' -> d = d') /\
    (forall p c, In (p, c) out -> exists d, D' p d /\ D' c (S d)) /\
    (forall x dx, D' x dx -> forall y, In y (nbrs G x) ->
       exists dy, D' y dy /\ (dy <= S dx)%nat).
Proof.
  induction fuel as [|fuel IH]; intros [|p q] seen out D k H Hlev.
  - inversion H; subst. destruct Hlev as (A & B & _ & _ & E).
    exists D. split; [auto|]. split; [assumption|]. split; [intros ? ? []|].
    intros x dx Hx y Hy.
    destruct (E x (proj2 (A x) (ex_intro _ dx Hx)) (fun F => F) y Hy)
      as (dx' & dy & Hdx & Hdy & Hle).
    rewrite (B x dx dx' Hx Hdx). eauto.
  - discriminate.
  - rewrite bfs_loop_nil in H. inversion H; subst.
    destruct Hlev as (A & B & _ & _ & E).
    exists D. split; [auto|]. split; [assumption|]. split; [intros ? ? []|].
    intros x dx Hx y Hy.
    destruct (E x (proj2 (A x) (ex_intro _ dx Hx)) (fun F => F) y Hy)
      as (dx' & dy & Hdx & Hdy & Hle).
    rewrite (B x dx dx' Hx Hdx). eauto.
  - apply bfs_loop_cons in H as (f' & cs & seen' & es & rest & Hf & N & Ex & L & ->).
    inversion Hf; subst f'.
    (* the level of the head of the queue *)
    assert (Hhead : exists kp, levelled G (p :: q) seen D kp /\
              exists qa' qb, q = qa' ++ qb /\ D p kp /\
                (forall x, In x qa' -> D x kp) /\ (forall x, In x qb -> D x (S kp))).
    { destruct Hlev as (A & B & (qa & qb & Hq & Ha & Hb) & Dk & E).
      destruct qa as [|a qa'].
      - simpl in Hq. subst qb. exists (S k). split.
        + apply levelled_next.
          * split; [assumption|]. split; [assumption|]. split; [|split; assumption].
            exists [], (p :: q). split; [reflexivity|]. split; [intros ? []|assumption].
          * intros qa qb Hq Ha' Hb'. destruct qa as [|a qa]; [reflexivity|].
            exfalso. inversion Hq; subst a.
            pose proof (B p (S k) k (Hb p (or_introl eq_refl)) (Ha' p (or_introl eq_refl))).
            lia.
        + exists q, []. rewrite app_nil_r. split; [reflexivity|].
          split; [apply Hb; now left|]. split; [intros x Hx; apply Hb; now right | intros x []].
      - inversion Hq; subst a q. exists k. split.
        + split; [assumption|]. split; [assumption|]. split; [|split; assumption].
          exists (p :: qa'), qb. split; [reflexivity|]. split; assumption.
        + exists qa', qb. split; [reflexivity|]. split; [apply Ha; now left|].
          split; [intros x Hx; apply Ha; now right | assumption]. }
    clear Hlev k. destruct Hhead as (k & (A & B & _ & Dk & E) & qa' & qb & Hq & Hp & Ha & Hb).
    pose proof (expand_seen _ _ _ _ _ Ex) as Sn.
    pose proof (expand_children _ _ _ _ _ Ex) as Ch.
    destruct (expand_fresh _ _ _ _ _ Ex) as [_ Fr].
    set (D1 := fun x d => D x d \/ (In x (map snd es) /\ d = S k)).
    destruct (IH (q ++ map snd es) seen' rest D1 k L) as (D' & Hsub & HB & Ht & He).
    { split; [|split; [|split; [|split]]].
      - intros x. rewrite Sn, A. unfold D1. split.
        + intros [[d Hd]|Hx]; eauto.
        + intros [d [Hd|[Hx _]]]; eauto.
      - intros x d d' [Hd|[Hx ->]] [Hd'|[Hx' ->]].
        + eapply B; eauto.
        + exfalso. apply (Fr x Hx'). apply A. eauto.
        + exfalso. apply (Fr x Hx). apply A. eauto.
        + reflexivity.
      - exists qa', (qb ++ map snd es). split; [now rewrite Hq, app_assoc|].
        split; [intros x Hx; left; now apply Ha|].
        intros x Hx. apply in_app_iff in Hx as [Hx|Hx]; [left; now apply Hb | right; now split].
      - intros x d [Hd|[_ ->]]; [now apply (Dk x) | lia].
      - intros x Hx Hnq y Hy. rewrite in_app_iff in Hnq.
        apply Sn in Hx as [Hx|Hx]; [|tauto].
        destruct (Z.eq_dec x p) as [->|Hne].
        + assert (Hy' : In y seen').
          { apply Ch. unfold nbrs in Hy. now rewrite N in Hy. }
          exists k. apply Sn in Hy' as [Hy'|Hy'].
          * apply A in Hy' as [dy Hdy]. exists dy.
            split; [now left|]. split; [now left | now apply (Dk y)].
          * exists (S k). split; [now left|]. split; [right; now split | lia].
        + destruct (E x Hx) with (y := y) as (dx & dy & Hdx & Hdy & Hle); auto.
          * intros [?|?]; [congruence | tauto].
          * exists dx, dy. split; [now left|]. split; [now left | assumption]. }
    exists D'. split; [intros x d Hd; apply Hsub; now left|].
    split; [assumption|]. split; [|assumption].
    intros p' c Hpc. apply in_app_iff in Hpc as [Hpc|Hpc]; [|now apply Ht].
    destruct (expand_edges _ _ _ _ _ Ex _ Hpc) as [Hp' _]. simpl in Hp'. subst p'.
    exists k. split; apply Hsub; [now left|]. right. split; [|reflexivity].
    apply in_map_iff. now exists (p, c).
Qed.

End Levels.

(** X4: with identifiers of the edge table that are at most 2^53 in
    absolute value (as every identifier of 8, 16 or 32 bits is), the
    parent links lead back to the start along a shortest walk: when a
    node is [d] parent links away from the node the traversal started
    at, no walk over the edges of the edge table joins the two in fewer
    than [d] steps. *)
Theorem read_nml_shortest node_ids e es rows :
  exact_edges (e :: es) ->
  NMLReader.read_nml node_ids (e :: es) = Some (Ok rows) ->
  forall x d n,
    hops rows (fst e) x d ->
    walk_len (adjacent (e :: es)) (fst e) x n ->
    (d <= n)%nat.
Proof.
  intros Hex H x d n Hh Hw.
  assert (Hids : node_ids <> []).
  { apply read_nml_Ok in H as (_ & _ & _ & _ & Hne & _). exact Hne. }
  destruct (read_nml_spec_exact node_ids e es Hids Hex) as (tree & Hb & Hr & _).
  rewrite Hr in H. inversion H; subst rows. clear H Hr.
  set (G := nx.add_edges_from nx.empty (e :: es)) in *. set (s := fst e) in *.
  unfold nx.bfs_edges in Hb.
  destruct (bfs_loop_levels G _ [s] [s] tree (fun y k => y = s /\ k = O) O Hb)
    as (D' & Hsub & HB & Ht & He).
  { split; [|split; [|split; [|split]]].
    - intros y. simpl. split.
      + intros [<-|[]]. now exists O.
      + intros [k [-> _]]. now left.
    - intros y k k' [_ ->] [_ ->]. reflexivity.
    - exists [s], []. split; [reflexivity|]. split; [|intros ? []].
      intros q [<-|[]]. now split.
    - intros y k [_ ->]. lia.
    - intros y Hy Hn. contradiction. }
  assert (Hs : D' s O) by (apply Hsub; now split).
  assert (Hd : D' x d).
  { clear Hw. induction Hh as [|c p d Hl _ IH]; [assumption|].
    apply child_link_tree in Hl as [_ Hl].
    destruct (Ht p c Hl) as (d0 & Hp & Hc).
    now rewrite (HB p d d0 IH Hp). }
  assert (Hn : exists d', D' x d' /\ (d' <= n)%nat).
  { clear Hd Hh. induction Hw as [|y z n _ (dy & Hy & Hle) Hyz].
    - exists O. split; [assumption | lia].
    - destruct (He y dy Hy z) as (dz & Hz & Hle').
      + now apply nbrs_adjacent.
      + exists dz. split; [assumption | lia]. }
  destruct Hn as (d' & Hd' & Hle). rewrite (HB x d d' Hd Hd'). exact Hle.
Qed.

Lemma read_nml_shortest_witness :
  NMLReader.read_nml [1; 2; 3; 4] [(1, 2); (2, 3); (3, 1); (3, 4)]
  = Some (Ok [(1, NONE); (2, 1); (3, 1); (4, 3)]) /\
  hops [(1, NONE); (2, 1); (3, 1); (4, 3)] 1 4 2 /\
  walk_len (adjacent [(1, 2); (2, 3); (3, 1); (3, 4)]) 1 4 3 /\
  (2 <= 3)%nat.
Proof.
  split; [reflexivity|].
  assert (Hh : hops [(1, NONE); (2, 1); (3, 1); (4, 3)] 1 4 2).
  { apply hops_link with (p := 3); [split; [reflexivity | discriminate]|].
    apply hops_link with (p := 1); [split; [reflexivity | discriminate]|].
    apply hops_start. }
  assert (Hw : walk_len (adjacent [(1, 2); (2, 3); (3, 1); (3, 4)]) 1 4 3).
  { apply walk_step with (x := 3); [|left; simpl; tauto].
    apply walk_step with (x := 2); [|left; simpl; tauto].
    apply walk_step with (x := 1); [|left; simpl; tauto].
    apply walk_here. }
  split; [exact Hh|]. split; [exact Hw|].
  assert (Hex : exact_edges [(1, 2); (2, 3); (3, 1); (3, 4)]).
  { apply exact_edges_check. reflexivity. }
  apply (read_nml_shortest [1; 2; 3; 4] (1, 2) [(2, 3); (3, 1); (3, 4)]
           [(1, NONE); (2, 1); (3, 1); (4, 3)] Hex eq_refl 4 2%nat 3%nat Hh Hw).
Defined.
